(** * Dictionary serialisation of the database models ([db/models.py])

    The module declares seven SQLAlchemy models that share the mixin
    [Model], whose single method [get_dict] projects an instance to a plain
    dictionary.  Python objects are mutable and shared by reference: the
    exclusion list handed to [get_dict] is appended to by [App.get_dict],
    the default exclusion lists are created once when the module is
    loaded, and the dictionary that is returned is a new object.  The
    embedding therefore runs every method over an explicit object store. *)

From Stdlib Require Import ZArith.
From stdpp Require Import base option list strings pretty gmap fin_maps.

(** ** Values and the object store *)

Abbreviation loc := nat.

(** A Python value is an immutable scalar or a reference to an object. *)
Inductive value :=
  | VNone
  | VInt (n : Z)
  | VStr (s : string)
  | VRef (l : loc).

Global Instance value_eq_dec : EqDecision value.
Proof. solve_decision. Defined.

(** The seven model classes. *)
Inductive kind :=
  | User | Employee | App | Role | Group | EmployeeToRole | RoleToGroup.

Global Instance kind_eq_dec : EqDecision kind.
Proof. solve_decision. Defined.

(** A model instance: its class, its attribute storage [self.__dict__],
    and the collection that the class-level [association_proxy] exposes
    ([self.roles] of an Employee, [self.groups] of a Role).  The proxy is a
    descriptor of the class and not an entry of [__dict__]. *)
Record instance := Instance {
  inst_class : kind;
  inst_dict : gmap string value;
  inst_proxy : list loc
}.

Global Instance instance_eq_dec : EqDecision instance.
Proof. solve_decision. Defined.

Inductive object :=
  | OList (xs : list value)
  | ODict (d : gmap string value)
  | OInst (i : instance).

Global Instance object_eq_dec : EqDecision object.
Proof. solve_decision. Defined.

(** Objects are never freed; a location is an index into the store and a
    new object is placed at its end. *)
Abbreviation heap := (list object).

(** ** Computations over the store

    [None] stands for a raised exception (an [AttributeError] or
    [TypeError] on an object of the wrong sort). *)

Definition Py (A : Type) : Type := heap → option (A * heap).

Definition ret {A} (x : A) : Py A := λ h, Some (x, h).

Definition bind {A B} (m : Py A) (k : A → Py B) : Py B :=
  λ h, match m h with
       | Some (x, h') => k x h'
       | None => None
       end.

Definition raise {A} : Py A := λ _, None.

Notation "x <- m ;; k" := (bind m (λ x, k))
  (at level 100, m at next level, right associativity).
Notation "m ;;; k" := (bind m (λ _, k))
  (at level 100, right associativity).

Definition alloc (o : object) : Py loc := λ h, Some (length h, h ++ [o]).

Definition deref (l : loc) : Py object :=
  λ h, match h !! l with
       | Some o => Some (o, h)
       | None => None
       end.

Definition store (l : loc) (o : object) : Py unit :=
  λ h, match h !! l with
       | Some _ => Some (tt, <[l := o]> h)
       | None => None
       end.

Definition read_list (l : loc) : Py (list value) :=
  o <- deref l ;;
  match o with
  | OList xs => ret xs
  | _ => raise
  end.

Definition read_dict (l : loc) : Py (gmap string value) :=
  o <- deref l ;;
  match o with
  | ODict d => ret d
  | _ => raise
  end.

Definition read_inst (l : loc) : Py instance :=
  o <- deref l ;;
  match o with
  | OInst i => ret i
  | _ => raise
  end.

(** [self] bound in a method of class [k]: the receiver is an instance of
    that class. *)
Definition self_of (k : kind) (self : loc) : Py instance :=
  i <- read_inst self ;;
  if decide (inst_class i = k) then ret i else raise.

(** [excludes.append(x)] *)
Definition list_append (l : loc) (x : value) : Py unit :=
  xs <- read_list l ;;
  store l (OList (xs ++ [x])).

(** [name in excludes] *)
Definition str_in (name : string) (l : loc) : Py bool :=
  xs <- read_list l ;;
  ret (bool_decide (VStr name ∈ xs)).

(** [d.update([(key, v)])] *)
Definition dict_update (l : loc) (key : string) (v : value) : Py unit :=
  d <- read_dict l ;;
  store l (ODict (<[key := v]> d)).

(** [dict(self.__dict__)]: a new dictionary with the same entries. *)
Definition dict_copy (d : gmap string value) : Py loc := alloc (ODict d).

(** [[f(x) for x in xs]] *)
Fixpoint for_each {A B} (f : A → Py B) (xs : list A) : Py (list B) :=
  match xs with
  | [] => ret []
  | x :: xs' =>
      y <- f x ;;
      ys <- for_each f xs' ;;
      ret (y :: ys)
  end.

Definition new_list (vs : list value) : Py loc := alloc (OList vs).

(** [self.roles] / [self.groups]: the proxied collection. *)
Definition read_proxy (self : loc) : Py (list loc) :=
  i <- read_inst self ;;
  ret (inst_proxy i).

(** ** The module

    The default [excludes = []] of a [def] is evaluated once, when the
    class body runs; the four methods that declare one get a list each, in
    the order of the file. *)

Definition Model_get_dict_defaults : loc := 0.
Definition Employee_get_dict_defaults : loc := 1.
Definition App_get_dict_defaults : loc := 2.
Definition Role_get_dict_defaults : loc := 3.

Definition module_heap : heap := [OList []; OList []; OList []; OList []].

(** Modelled from the spec: [filter_dictionary] of [db/helpers.py], which
    is imported by the module and not part of it.  The spec gives the base
    behaviour as: copy every attribute into a new mapping, "then remove
    every key present in [exclude]"; an unknown name is ignored and
    nothing else is touched.  The helper receives the copy, removes from
    it the keys that occur in the exclusion list, and returns it. *)
Definition filter_dictionary (dictionary excludes : loc) : Py loc :=
  d <- read_dict dictionary ;;
  xs <- read_list excludes ;;
  store dictionary (ODict (filter (λ kv, VStr kv.1 ∉ xs) d)) ;;;
  ret dictionary.

(** [Model.get_dict] *)
Definition Model_get_dict (self excludes : loc) : Py loc :=
  i <- read_inst self ;;
  copy <- dict_copy (inst_dict i) ;;
  filter_dictionary copy excludes.

(** [User.get_dict] *)
Definition User_get_dict (self excludes : loc) : Py loc :=
  self_of User self ;;;
  user_dict <- Model_get_dict self excludes ;;
  ret user_dict.

(** [Group], [EmployeeToRole] and [RoleToGroup] inherit the method. *)
Definition Group_get_dict (self excludes : loc) : Py loc :=
  self_of Group self ;;;
  Model_get_dict self excludes.

Definition EmployeeToRole_get_dict (self excludes : loc) : Py loc :=
  self_of EmployeeToRole self ;;;
  Model_get_dict self excludes.

Definition RoleToGroup_get_dict (self excludes : loc) : Py loc :=
  self_of RoleToGroup self ;;;
  Model_get_dict self excludes.

(** [Role.get_dict].  [group.get_dict()] is the method that Group
    inherits, called without an argument: it runs on the default list of
    [Model.get_dict]. *)
Definition Role_get_dict (self excludes : loc) : Py loc :=
  self_of Role self ;;;
  role_dict <- Model_get_dict self excludes ;;
  excluded <- str_in "groups" excludes ;;
  (if negb excluded then
     self_groups <- read_proxy self ;;
     ds <- for_each (λ group, Group_get_dict group Model_get_dict_defaults)
                    self_groups ;;
     groups <- new_list (VRef <$> ds) ;;
     dict_update role_dict "groups" (VRef groups)
   else ret tt) ;;;
  ret role_dict.

(** [Employee.get_dict].  [role.get_dict()] runs [Role.get_dict] on its
    own default list. *)
Definition Employee_get_dict (self excludes : loc) : Py loc :=
  self_of Employee self ;;;
  employee_dict <- Model_get_dict self excludes ;;
  excluded <- str_in "roles" excludes ;;
  (if negb excluded then
     self_roles <- read_proxy self ;;
     ds <- for_each (λ role, Role_get_dict role Role_get_dict_defaults)
                    self_roles ;;
     roles <- new_list (VRef <$> ds) ;;
     dict_update employee_dict "roles" (VRef roles)
   else ret tt) ;;;
  ret employee_dict.

(** [App.get_dict]: the append is made on the list object that was
    passed in, be it the caller's or the default. *)
Definition App_get_dict (self excludes : loc) : Py loc :=
  self_of App self ;;;
  list_append excludes (VStr "token") ;;;
  Model_get_dict self excludes.

(** [r.get_dict(excludes)]: the method of the class of [r]. *)
Definition get_dict (self excludes : loc) : Py loc :=
  i <- read_inst self ;;
  match inst_class i with
  | User => User_get_dict self excludes
  | Employee => Employee_get_dict self excludes
  | App => App_get_dict self excludes
  | Role => Role_get_dict self excludes
  | Group => Group_get_dict self excludes
  | EmployeeToRole => EmployeeToRole_get_dict self excludes
  | RoleToGroup => RoleToGroup_get_dict self excludes
  end.

(** ** Constructors ([__init__]) *)





(** ** Calls *)

(** [r.get_dict([x1, ..., xn])]: the caller writes a list display, which
    is a new list object. *)
Definition get_dict_with (xs : list value) (self : loc) : Py loc :=
  excludes <- new_list xs ;;
  get_dict self excludes.



(** ** Structural comparison ([==] on the results)

    Lists and dictionaries compare by contents, model instances by
    identity.  [snapshot n h v] unfolds [v] to depth [n]. *)

#[local] Set Warnings "-register-all".

Inductive tree :=
  | TNone
  | TInt (n : Z)
  | TStr (s : string)
  | TObj (l : loc)
  | TList (ts : list tree)
  | TDict (d : gmap string tree)
  | TCut.

Fixpoint snapshot (n : nat) (h : heap) (v : value) : tree :=
  match v with
  | VNone => TNone
  | VInt z => TInt z
  | VStr s => TStr s
  | VRef l =>
      match n with
      | O => TCut
      | S n' =>
          match h !! l with
          | Some (OList xs) => TList (snapshot n' h <$> xs)
          | Some (ODict d) => TDict (snapshot n' h <$> d)
          | Some (OInst _) => TObj l
          | None => TCut
          end
      end
  end.

(** ** Reading the store *)

Definition class_of (h : heap) (l : loc) : option kind :=
  match h !! l with
  | Some (OInst i) => Some (inst_class i)
  | _ => None
  end.

Definition attrs (h : heap) (l : loc) : gmap string value :=
  match h !! l with
  | Some (OInst i) => inst_dict i
  | _ => ∅
  end.

Definition proxy (h : heap) (l : loc) : list loc :=
  match h !! l with
  | Some (OInst i) => inst_proxy i
  | _ => []
  end.

(** The entries of [d] whose key does not occur in the exclusion list. *)
Definition kept (xs : list value) (d : gmap string value)
  : gmap string value :=
  filter (λ kv, VStr kv.1 ∉ xs) d.

(** ** Well-formed stores

    No reference dangles; the collection behind [roles] holds Role
    instances and the one behind [groups] Group instances, as the
    relationships declare; the default lists of [Model.get_dict],
    [Employee.get_dict] and [Role.get_dict], which no method of the module
    writes to, are still empty. *)

Definition val_ok (n : nat) (v : value) : Prop :=
  match v with
  | VRef l => l < n
  | _ => True
  end.

Global Instance val_ok_dec n v : Decision (val_ok n v).
Proof. destruct v; simpl; apply _. Defined.

Definition obj_ok (n : nat) (o : object) : Prop :=
  match o with
  | OList xs => Forall (val_ok n) xs
  | ODict d => map_Forall (λ _, val_ok n) d
  | OInst i =>
      map_Forall (λ _, val_ok n) (inst_dict i)
      ∧ Forall (λ l, l < n) (inst_proxy i)
  end.

Global Instance obj_ok_dec n o : Decision (obj_ok n o).
Proof. destruct o; simpl; apply _. Defined.

Definition closed (h : heap) : Prop := Forall (obj_ok (length h)) h.

Definition proxy_ok (h : heap) (o : object) : Prop :=
  match o with
  | OInst i =>
      match inst_class i with
      | Employee => Forall (λ l, class_of h l = Some Role) (inst_proxy i)
      | Role => Forall (λ l, class_of h l = Some Group) (inst_proxy i)
      | _ => True
      end
  | _ => True
  end.

Global Instance proxy_ok_dec h o : Decision (proxy_ok h o).
Proof. destruct o as [| |[[] ? ?]]; simpl; apply _. Defined.

Definition typed (h : heap) : Prop := Forall (proxy_ok h) h.

Definition is_list (h : heap) (l : loc) : Prop :=
  match h !! l with
  | Some (OList _) => True
  | _ => False
  end.

Global Instance is_list_dec h l : Decision (is_list h l).
Proof. unfold is_list. destruct (h !! l) as [[]|]; apply _. Defined.

(** The default list of [App.get_dict] only ever receives ['token']. *)
Definition only_token (h : heap) (l : loc) : Prop :=
  match h !! l with
  | Some (OList xs) => Forall (λ v, v = VStr "token") xs
  | _ => False
  end.

Global Instance only_token_dec h l : Decision (only_token h l).
Proof. unfold only_token. destruct (h !! l) as [[]|]; apply _. Defined.

Definition defaults_ok (h : heap) : Prop :=
  h !! Model_get_dict_defaults = Some (OList [])
  ∧ h !! Employee_get_dict_defaults = Some (OList [])
  ∧ h !! Role_get_dict_defaults = Some (OList [])
  ∧ only_token h App_get_dict_defaults.

Definition wf_heap (h : heap) : Prop := closed h ∧ typed h ∧ defaults_ok h.

Global Instance wf_heap_dec h : Decision (wf_heap h).
Proof. unfold wf_heap, closed, typed, defaults_ok. apply _. Defined.

(** An exclusion list supplied by a caller: a list object that is not one
    of the default lists owned by the methods. *)
Definition caller_list (h : heap) (e : loc) : Prop :=
  is_list h e ∧ Role_get_dict_defaults < e.

Global Instance caller_list_dec h e : Decision (caller_list h e).
Proof. unfold caller_list. apply _. Defined.

(** The relationships of a role, and what a run needs of the store it
    starts from. *)
Definition role_typed (h : heap) (r : loc) : Prop :=
  class_of h r = Some Role
  ∧ Forall (λ g, class_of h g = Some Group) (proxy h r).

Definition runnable (h : heap) : Prop :=
  typed h
  ∧ h !! Model_get_dict_defaults = Some (OList [])
  ∧ h !! Role_get_dict_defaults = Some (OList []).

(** ** Attribute names *)

(** The key under which a class expands its relationship. *)
Definition proxy_name (c : kind) : option string :=
  match c with
  | Employee => Some "roles"
  | Role => Some "groups"
  | _ => None
  end.


(** ** What a call leaves in the store

    A call appends a block of new objects to the store: the result
    dictionary first, then whatever the expansion of the relationship
    builds.  The blocks are written out here, by class of the receiver;
    the lemmas on running the methods show that they are what the methods
    produce. *)

(** The exclusion list after the call. *)
Definition excludes_after (c : kind) (xs : list value) : list value :=
  match c with
  | App => xs ++ [VStr "token"]
  | _ => xs
  end.

(** The dictionaries that the loop over [self.groups] appends: one per
    group, each serialised with the default list of [Model.get_dict]. *)
Definition group_dicts (h : heap) (ys : list value) (gs : list loc)
  : list object :=
  (λ g, ODict (kept ys (attrs h g))) <$> gs.

(** The objects that [Role.get_dict] appends when run at the end of a
    store of size [base]: the result, then one dictionary per group and
    the list that holds them. *)
Definition Role_block (base : nat) (h : heap) (xs ys : list value) (self : loc)
  : list object :=
  if bool_decide (VStr "groups" ∈ xs) then [ODict (kept xs (attrs h self))]
  else
    ODict (<["groups" := VRef (S base + length (proxy h self))]>
             (kept xs (attrs h self)))
    :: group_dicts h ys (proxy h self)
    ++ [OList (VRef <$> seq (S base) (length (proxy h self)))].

(** The loop over [self.roles]: every role appends its own block, so the
    results are spread over the store; [role_locs] are their locations. *)
Fixpoint role_locs (base : nat) (h : heap) (zs ys : list value)
    (rs : list loc) : list loc :=
  match rs with
  | [] => []
  | r :: rs' =>
      base :: role_locs (base + length (Role_block base h zs ys r)) h zs ys rs'
  end.

Fixpoint role_blocks (base : nat) (h : heap) (zs ys : list value)
    (rs : list loc) : list object :=
  match rs with
  | [] => []
  | r :: rs' =>
      Role_block base h zs ys r
      ++ role_blocks (base + length (Role_block base h zs ys r)) h zs ys rs'
  end.

(** The objects that [Employee.get_dict] appends. *)
Definition Employee_block (base : nat) (h : heap) (xs zs ys : list value)
    (self : loc) : list object :=
  if bool_decide (VStr "roles" ∈ xs) then [ODict (kept xs (attrs h self))]
  else
    ODict (<["roles" :=
               VRef (S base
                     + length (role_blocks (S base) h zs ys (proxy h self)))]>
             (kept xs (attrs h self)))
    :: role_blocks (S base) h zs ys (proxy h self)
    ++ [OList (VRef <$> role_locs (S base) h zs ys (proxy h self))].

Definition method_block (c : kind) (base : nat) (h : heap) (xs : list value)
    (self : loc) : list object :=
  match c with
  | Employee => Employee_block base h xs [] [] self
  | Role => Role_block base h xs [] self
  | _ => [ODict (kept (excludes_after c xs) (attrs h self))]
  end.

(** The appended objects are lists and dictionaries. *)
Definition plain (o : object) : Prop :=
  match o with
  | OInst _ => False
  | _ => True
  end.

(** [h ⊑ H]: every object of [h] is still there, unchanged, in [H]. *)
Definition preserved (h H : heap) : Prop :=
  ∀ l o, h !! l = Some o → H !! l = Some o.

Infix "⊑" := preserved (at level 70).

(** [blk] sits in [H] from location [base] on. *)
Definition placed (H : heap) (base : nat) (blk : list object) : Prop :=
  ∀ j o, blk !! j = Some o → H !! (base + j) = Some o.

(** ** What a result looks like, read off the instance

    [Model_view n h xs l] is the snapshot, to depth [n], of the dictionary
    that the inherited method builds for the instance at [l] of the store
    [h] under the exclusion list [xs]; [Role_view] and [Employee_view] add
    the expanded relationship ([ys] and [zs] are the contents of the
    default lists of [Model.get_dict] and [Role.get_dict]). *)

Definition Model_view (n : nat) (h : heap) (xs : list value) (l : loc) : tree :=
  match n with
  | O => TCut
  | S m => TDict (snapshot m h <$> kept xs (attrs h l))
  end.

Definition Role_view (n : nat) (h : heap) (xs ys : list value) (l : loc)
  : tree :=
  match n with
  | O => TCut
  | S m =>
      let base := snapshot m h <$> kept xs (attrs h l) in
      TDict (if bool_decide (VStr "groups" ∈ xs) then base
             else <["groups" :=
                      match m with
                      | O => TCut
                      | S m' => TList ((Model_view m' h ys) <$> proxy h l)
                      end]> base)
  end.

Definition Employee_view (n : nat) (h : heap) (xs zs ys : list value) (l : loc)
  : tree :=
  match n with
  | O => TCut
  | S m =>
      let base := snapshot m h <$> kept xs (attrs h l) in
      TDict (if bool_decide (VStr "roles" ∈ xs) then base
             else <["roles" :=
                      match m with
                      | O => TCut
                      | S m' => TList ((Role_view m' h zs ys) <$> proxy h l)
                      end]> base)
  end.

Definition method_view (c : kind) (n : nat) (h : heap) (xs : list value)
    (self : loc) : tree :=
  match c with
  | Employee => Employee_view n h xs [] [] self
  | Role => Role_view n h xs [] self
  | _ => Model_view n h (excludes_after c xs) self
  end.

(** ** A store to run the methods on

    Two groups, a role holding both, a role without groups, an employee
    with both roles, an App, a User and a list supplied by a caller. *)

Definition sample_group1 : instance :=
  Instance Group
    (<["app_id" := VStr "1"]>
       (<["app_group_id" := VStr "G1"]> {["name" := VStr "devs"]})) [].

Definition sample_group2 : instance :=
  Instance Group
    (<["app_id" := VStr "1"]>
       (<["app_group_id" := VStr "G2"]> {["name" := VStr "ops"]})) [].

Definition sample_role1 : instance :=
  Instance Role (<["description" := VStr "d"]> {["name" := VStr "admin"]})
    [4; 5].

Definition sample_role2 : instance :=
  Instance Role
    (<["id" := VInt 7]>
       (<["description" := VStr EmptyString]> {["name" := VStr "guest"]})) [].

Definition sample_employee : instance :=
  Instance Employee
    (<["slack_id" := VStr "U1"]>
       (<["last_name" := VStr "B"]>
          (<["first_name" := VStr "A"]> {["email" := VStr "a@x.com"]})))
    [6; 7].

Definition sample_app1 : instance :=
  Instance App (<["token" := VStr "secret123"]> {["name" := VStr "Slack"]}) [].

Definition sample_app2 : instance :=
  Instance App (<["token" := VStr "other"]> {["name" := VStr "Slack"]}) [].

Definition sample_user : instance :=
  Instance User (<["password" := VStr "pw"]> {["email" := VStr "u@x.com"]}) [].

Definition sample_excludes : list value := [VStr "email"; VStr "nickname"].

Definition sample_heap : heap :=
  module_heap ++
  [ OInst sample_group1; OInst sample_group2;
    OInst sample_role1; OInst sample_role2;
    OInst sample_employee;
    OInst sample_app1; OInst sample_app2;
    OInst sample_user;
    OList sample_excludes ].

(** ** The rest of the module *)






(** ** Callers *)


(** [[r.get_dict(excludes) for r in records]]: several records serialised
    with one exclusion list. *)
Definition get_dict_all (records : list loc) (excludes : loc)
  : Py (list loc) :=
  for_each (λ r, get_dict r excludes) records.

(** [a.get_dict(excludes); r.get_dict(excludes)]: the list is used again
    after a first call. *)
Definition get_dict_after (a r excludes : loc) : Py loc :=
  get_dict a excludes ;;;
  get_dict r excludes.

(** The App records among [rs]. *)
Definition apps_among (h : heap) (rs : list loc) : nat :=
  length (filter (λ r, class_of h r = Some App) rs).

Example module_heap_wf : wf_heap module_heap.
Proof. apply (bool_decide_unpack _). vm_compute. exact I. Qed.

(** ** Running the primitives *)

Lemma bind_run {A B} (m : Py A) (k : A → Py B) h x h' :
  m h = Some (x, h') → bind m k h = k x h'.
Proof. intros E. unfold bind. by rewrite E. Qed.

Lemma bind_assoc {A B C} (m : Py A) (f : A → Py B) (g : B → Py C) h :
  bind (bind m f) g h = bind m (λ x, bind (f x) g) h.
Proof. unfold bind. by destruct (m h) as [[x h']|]. Qed.

Lemma read_inst_run h l i :
  h !! l = Some (OInst i) → read_inst l h = Some (i, h).
Proof. intros E. unfold read_inst, bind, deref. by rewrite E. Qed.

Lemma read_list_run h l xs :
  h !! l = Some (OList xs) → read_list l h = Some (xs, h).
Proof. intros E. unfold read_list, bind, deref. by rewrite E. Qed.

Lemma read_dict_run h l d :
  h !! l = Some (ODict d) → read_dict l h = Some (d, h).
Proof. intros E. unfold read_dict, bind, deref. by rewrite E. Qed.

Lemma read_proxy_run h l i :
  h !! l = Some (OInst i) → read_proxy l h = Some (inst_proxy i, h).
Proof. intros E. unfold read_proxy. by rewrite (bind_run _ _ _ _ _ (read_inst_run _ _ _ E)). Qed.

Lemma store_run h l o0 o :
  h !! l = Some o0 → store l o h = Some (tt, <[l := o]> h).
Proof. intros E. unfold store. by rewrite E. Qed.

Lemma self_of_run h l i :
  h !! l = Some (OInst i) → self_of (inst_class i) l h = Some (i, h).
Proof.
  intros E. unfold self_of.
  rewrite (bind_run _ _ _ _ _ (read_inst_run _ _ _ E)).
  by rewrite decide_True.
Qed.

Lemma new_list_run h vs : new_list vs h = Some (length h, h ++ [OList vs]).
Proof. done. Qed.

Lemma str_in_run h l xs name :
  h !! l = Some (OList xs) →
  str_in name l h = Some (bool_decide (VStr name ∈ xs), h).
Proof.
  intros E. unfold str_in.
  by rewrite (bind_run _ _ _ _ _ (read_list_run _ _ _ E)).
Qed.

Lemma list_append_run h l xs x :
  h !! l = Some (OList xs) →
  list_append l x h = Some (tt, <[l := OList (xs ++ [x])]> h).
Proof.
  intros E. unfold list_append.
  rewrite (bind_run _ _ _ _ _ (read_list_run _ _ _ E)).
  by apply store_run with (OList xs).
Qed.

Lemma dict_update_run h l d key v :
  h !! l = Some (ODict d) →
  dict_update l key v h = Some (tt, <[l := ODict (<[key := v]> d)]> h).
Proof.
  intros E. unfold dict_update.
  rewrite (bind_run _ _ _ _ _ (read_dict_run _ _ _ E)).
  by apply store_run with (ODict d).
Qed.

(** ** Facts about the store *)

Lemma lookup_snoc (h : heap) o : (h ++ [o]) !! length h = Some o.
Proof. by rewrite lookup_app_r, Nat.sub_diag. Qed.

Lemma insert_snoc (h : heap) o o' : <[length h := o']> (h ++ [o]) = h ++ [o'].
Proof.
  rewrite insert_app_r_alt by lia. by rewrite Nat.sub_diag.
Qed.

Lemma lookup_old (h k : heap) l o :
  h !! l = Some o → (h ++ k) !! l = Some o.
Proof. apply lookup_app_l_Some. Qed.

Lemma class_of_old h k l c :
  class_of h l = Some c → class_of (h ++ k) l = Some c.
Proof.
  unfold class_of. destruct (h !! l) as [o|] eqn:E; [|done].
  by rewrite (lookup_old _ k _ _ E).
Qed.

Lemma class_of_inst h l c :
  class_of h l = Some c →
  ∃ i, h !! l = Some (OInst i) ∧ inst_class i = c.
Proof.
  unfold class_of. destruct (h !! l) as [[| |i]|]; try done.
  intros [= <-]. by exists i.
Qed.

Lemma attrs_inst h l i : h !! l = Some (OInst i) → attrs h l = inst_dict i.
Proof. intros E. unfold attrs. by rewrite E. Qed.

Lemma proxy_inst h l i : h !! l = Some (OInst i) → proxy h l = inst_proxy i.
Proof. intros E. unfold proxy. by rewrite E. Qed.

(** ** Running the methods *)

Lemma filter_dictionary_run h d m e xs :
  h !! d = Some (ODict m) → h !! e = Some (OList xs) →
  filter_dictionary d e h = Some (d, <[d := ODict (kept xs m)]> h).
Proof.
  intros Ed Ee. unfold filter_dictionary.
  rewrite (bind_run _ _ _ _ _ (read_dict_run _ _ _ Ed)).
  rewrite (bind_run _ _ _ _ _ (read_list_run _ _ _ Ee)).
  by rewrite (bind_run _ _ _ _ _ (store_run _ _ _ _ Ed)).
Qed.

Lemma Model_get_dict_run h self e i xs :
  h !! self = Some (OInst i) → h !! e = Some (OList xs) →
  Model_get_dict self e h
  = Some (length h, h ++ [ODict (kept xs (inst_dict i))]).
Proof.
  intros Es Ee. unfold Model_get_dict.
  rewrite (bind_run _ _ _ _ _ (read_inst_run _ _ _ Es)).
  unfold dict_copy.
  rewrite (bind_run _ _ _ (length h) (h ++ [ODict (inst_dict i)])) by done.
  rewrite (filter_dictionary_run _ _ (inst_dict i) _ xs).
  - by rewrite insert_snoc.
  - apply lookup_snoc.
  - by apply lookup_old.
Qed.

Lemma User_get_dict_run h self e i xs :
  h !! self = Some (OInst i) → inst_class i = User →
  h !! e = Some (OList xs) →
  User_get_dict self e h
  = Some (length h, h ++ [ODict (kept xs (inst_dict i))]).
Proof.
  intros Es Ec Ee. unfold User_get_dict.
  rewrite <- Ec, (bind_run _ _ _ _ _ (self_of_run _ _ _ Es)).
  by rewrite (bind_run _ _ _ _ _ (Model_get_dict_run _ _ _ _ _ Es Ee)).
Qed.

Lemma Group_get_dict_run h self e i xs :
  h !! self = Some (OInst i) → inst_class i = Group →
  h !! e = Some (OList xs) →
  Group_get_dict self e h
  = Some (length h, h ++ [ODict (kept xs (inst_dict i))]).
Proof.
  intros Es Ec Ee. unfold Group_get_dict.
  rewrite <- Ec, (bind_run _ _ _ _ _ (self_of_run _ _ _ Es)).
  by apply Model_get_dict_run.
Qed.

Lemma EmployeeToRole_get_dict_run h self e i xs :
  h !! self = Some (OInst i) → inst_class i = EmployeeToRole →
  h !! e = Some (OList xs) →
  EmployeeToRole_get_dict self e h
  = Some (length h, h ++ [ODict (kept xs (inst_dict i))]).
Proof.
  intros Es Ec Ee. unfold EmployeeToRole_get_dict.
  rewrite <- Ec, (bind_run _ _ _ _ _ (self_of_run _ _ _ Es)).
  by apply Model_get_dict_run.
Qed.

Lemma RoleToGroup_get_dict_run h self e i xs :
  h !! self = Some (OInst i) → inst_class i = RoleToGroup →
  h !! e = Some (OList xs) →
  RoleToGroup_get_dict self e h
  = Some (length h, h ++ [ODict (kept xs (inst_dict i))]).
Proof.
  intros Es Ec Ee. unfold RoleToGroup_get_dict.
  rewrite <- Ec, (bind_run _ _ _ _ _ (self_of_run _ _ _ Es)).
  by apply Model_get_dict_run.
Qed.

Lemma App_get_dict_run h self e i xs :
  h !! self = Some (OInst i) → inst_class i = App →
  h !! e = Some (OList xs) →
  App_get_dict self e h
  = Some (length h,
          <[e := OList (xs ++ [VStr "token"])]> h
          ++ [ODict (kept (xs ++ [VStr "token"]) (inst_dict i))]).
Proof.
  intros Es Ec Ee. unfold App_get_dict.
  rewrite <- Ec, (bind_run _ _ _ _ _ (self_of_run _ _ _ Es)).
  rewrite (bind_run _ _ _ _ _ (list_append_run _ _ _ _ Ee)).
  assert (e ≠ self) as Hne by (intros ->; congruence).
  rewrite (Model_get_dict_run _ _ _ i (xs ++ [VStr "token"])).
  - by rewrite length_insert.
  - by rewrite list_lookup_insert_ne.
  - apply list_lookup_insert_eq. by eapply lookup_lt_Some.
Qed.

Lemma groups_loop_run h ys gs :
  Forall (λ g, class_of h g = Some Group) gs →
  h !! Model_get_dict_defaults = Some (OList ys) →
  ∀ k,
    for_each (λ group, Group_get_dict group Model_get_dict_defaults) gs (h ++ k)
    = Some (seq (length (h ++ k)) (length gs),
            (h ++ k) ++ group_dicts h ys gs).
Proof.
  intros Hgs Hd. induction Hgs as [|g gs Hg _ IH]; intros k.
  - simpl. unfold ret. by rewrite app_nil_r.
  - destruct (class_of_inst _ _ _ Hg) as (i & Ei & Ec).
    cbn [for_each].
    rewrite (bind_run _ _ _ _ _
               (Group_get_dict_run _ _ _ _ _ (lookup_old _ k _ _ Ei) Ec
                  (lookup_old _ k _ _ Hd))).
    rewrite <- (assoc_L (++) h k).
    rewrite (bind_run _ _ _ _ _ (IH _)). unfold ret.
    unfold group_dicts. rewrite fmap_cons, (attrs_inst _ _ _ Ei).
    replace (length (h ++ k ++ [ODict (kept ys (inst_dict i))]))
      with (S (length (h ++ k))) by (rewrite !length_app; simpl; lia).
    by rewrite <- !(assoc_L (++)).
Qed.

Lemma Role_get_dict_run h k self e xs ys :
  class_of h self = Some Role →
  Forall (λ g, class_of h g = Some Group) (proxy h self) →
  h !! Model_get_dict_defaults = Some (OList ys) →
  (h ++ k) !! e = Some (OList xs) →
  Role_get_dict self e (h ++ k)
  = Some (length (h ++ k),
          (h ++ k) ++ Role_block (length (h ++ k)) h xs ys self).
Proof.
  intros Hc Hgs Hd He.
  destruct (class_of_inst _ _ _ Hc) as (i & Ei & Ec).
  pose proof (lookup_old _ k _ _ Ei) as Ei'.
  unfold Role_get_dict, Role_block.
  rewrite <- Ec, (bind_run _ _ _ _ _ (self_of_run _ _ _ Ei')).
  rewrite (bind_run _ _ _ _ _ (Model_get_dict_run _ _ _ _ _ Ei' He)).
  rewrite (bind_run _ _ _ _ _
             (str_in_run _ _ _ "groups" (lookup_old _ [_] _ _ He))).
  rewrite (attrs_inst _ _ _ Ei), (proxy_inst _ _ _ Ei) in *.
  destruct (bool_decide (VStr "groups" ∈ xs)); simpl.
  - done.
  - rewrite !bind_assoc.
    rewrite (bind_run _ _ _ _ _
               (read_proxy_run _ _ _ (lookup_old _ [_] _ _ Ei'))).
    rewrite !bind_assoc.
    rewrite <- (assoc_L (++) h k).
    rewrite (bind_run _ _ _ _ _ (groups_loop_run _ _ _ Hgs Hd _)).
    rewrite !bind_assoc.
    set (h1 := h ++ k ++ [ODict (kept xs (inst_dict i))]).
    set (gd := group_dicts h ys (inst_proxy i)).
    rewrite (bind_run _ _ _ _ _ (new_list_run _ _)).
    assert (length h1 = S (length (h ++ k))) as Hl1.
    { unfold h1. rewrite !length_app. simpl. lia. }
    assert (length gd = length (inst_proxy i)) as Hlg.
    { unfold gd, group_dicts. by rewrite length_fmap. }
    assert (h1 = (h ++ k) ++ [ODict (kept xs (inst_dict i))]) as Hh1.
    { unfold h1. by rewrite (assoc_L (++)). }
    erewrite bind_run; last first.
    { apply dict_update_run with (d := kept xs (inst_dict i)).
      rewrite Hh1, <- !(assoc_L (++) (h ++ k)).
      by rewrite lookup_app_r, Nat.sub_diag. }
    unfold ret. f_equal. f_equal.
    rewrite (length_app h1 gd), Hl1, Hlg.
    rewrite Hh1, <- !(assoc_L (++) (h ++ k)).
    by rewrite insert_app_r_alt, Nat.sub_diag by lia.
Qed.

Lemma preserved_app (h k : heap) : h ⊑ h ++ k.
Proof. intros l o. apply lookup_old. Qed.

Lemma preserved_trans (h1 h2 h3 : heap) : h1 ⊑ h2 → h2 ⊑ h3 → h1 ⊑ h3.
Proof. intros H12 H23 l o E. eauto. Qed.

Lemma placed_app (h blk k : heap) : placed (h ++ blk ++ k) (length h) blk.
Proof.
  intros j o E. rewrite lookup_app_r by lia.
  replace (length h + j - length h) with j by lia.
  by apply lookup_app_l_Some.
Qed.

Lemma placed_app_l H base (a b : list object) :
  placed H base (a ++ b) → placed H base a.
Proof. intros Hp j o E. apply Hp. by apply lookup_app_l_Some. Qed.

Lemma placed_app_r H base (a b : list object) :
  placed H base (a ++ b) → placed H (base + length a) b.
Proof.
  intros Hp j o E. rewrite <- Nat.add_assoc. apply Hp.
  rewrite lookup_app_r by lia.
  by replace (length a + j - length a) with j by lia.
Qed.

Lemma placed_cons H base o (b : list object) :
  placed H base (o :: b) → H !! base = Some o ∧ placed H (S base) b.
Proof.
  intros Hp. split.
  - rewrite <- (Nat.add_0_r base). by apply Hp.
  - intros j o' E. replace (S base + j) with (base + S j) by lia.
    by apply Hp.
Qed.

Lemma placed_preserved H H' base blk :
  placed H base blk → H ⊑ H' → placed H' base blk.
Proof. intros Hp Hs j o E. by apply Hs, Hp. Qed.

Lemma closed_lookup h l o : closed h → h !! l = Some o → obj_ok (length h) o.
Proof. intros Hc E. by eapply (proj1 (Forall_lookup _ _) Hc). Qed.

Lemma attrs_ok h l :
  closed h → map_Forall (λ _, val_ok (length h)) (attrs h l).
Proof.
  intros Hc. unfold attrs.
  destruct (h !! l) as [[| |i]|] eqn:E; try apply map_Forall_empty.
  by destruct (closed_lookup _ _ _ Hc E).
Qed.

Lemma kept_lookup xs d s :
  kept xs d !! s = if decide (VStr s ∈ xs) then None else d !! s.
Proof.
  unfold kept. destruct (decide (VStr s ∈ xs)) as [Hin|Hout].
  - apply map_lookup_filter_None. right. intros v _ Hn. by apply Hn.
  - destruct (d !! s) as [v|] eqn:E.
    + by apply map_lookup_filter_Some.
    + apply map_lookup_filter_None. by left.
Qed.

Lemma kept_ok n xs d :
  map_Forall (λ _, val_ok n) d → map_Forall (λ _, val_ok n) (kept xs d).
Proof.
  intros Hd s v E. rewrite kept_lookup in E.
  destruct (decide _); [done|]. by apply (Hd s).
Qed.

(** References made inside a closed store mean the same in every store
    that preserves it. *)
Lemma snapshot_preserved h H :
  closed h → h ⊑ H →
  ∀ n v, val_ok (length h) v → snapshot n H v = snapshot n h v.
Proof.
  intros Hc Hs. induction n as [|n IH]; intros [| | |l] Hv; try done.
  simpl in Hv. destruct (lookup_lt_is_Some_2 h l Hv) as [o E].
  simpl. rewrite E, (Hs _ _ E).
  pose proof (closed_lookup _ _ _ Hc E) as Ho.
  destruct o as [xs|d|i]; simpl in Ho; [| |done].
  - f_equal. apply Forall_fmap_ext_1.
    eapply Forall_impl; [exact Ho|]. intros v. apply IH.
  - f_equal. apply map_fmap_ext. intros s v Es. apply IH. by apply (Ho s).
Qed.

Lemma kept_snapshot h H n xs l :
  closed h → h ⊑ H →
  snapshot n H <$> kept xs (attrs h l) = snapshot n h <$> kept xs (attrs h l).
Proof.
  intros Hc Hs. apply map_fmap_ext. intros s v E.
  apply snapshot_preserved; [done..|].
  by apply (kept_ok _ xs _ (attrs_ok h l Hc) s).
Qed.

Lemma Model_snapshot h H xs self d :
  closed h → h ⊑ H →
  H !! d = Some (ODict (kept xs (attrs h self))) →
  ∀ n, snapshot n H (VRef d) = Model_view n h xs self.
Proof.
  intros Hc Hs Ed [|n]; [done|]. simpl. rewrite Ed.
  by rewrite kept_snapshot.
Qed.

Lemma groups_snapshot h H ys n :
  closed h → h ⊑ H →
  ∀ gs base,
    placed H base (group_dicts h ys gs) →
    snapshot n H <$> (VRef <$> seq base (length gs))
    = Model_view n h ys <$> gs.
Proof.
  intros Hc Hs. induction gs as [|g gs IH]; intros base Hp; [done|].
  apply placed_cons in Hp as [E Hp]. simpl. f_equal.
  - by apply Model_snapshot.
  - by apply IH.
Qed.

Lemma Role_snapshot h H xs ys self base :
  closed h → h ⊑ H →
  placed H base (Role_block base h xs ys self) →
  ∀ n, snapshot n H (VRef base) = Role_view n h xs ys self.
Proof.
  intros Hc Hs Hp [|n]; [done|]. unfold Role_block in Hp. simpl.
  destruct (bool_decide (VStr "groups" ∈ xs)).
  - apply placed_cons in Hp as [E _]. rewrite E. by rewrite kept_snapshot.
  - apply placed_cons in Hp as [E Hp]. rewrite E, fmap_insert.
    rewrite kept_snapshot by done. do 2 f_equal.
    destruct n as [|n]; [done|].
    pose proof (placed_app_r _ _ _ _ Hp) as Hl.
    apply placed_cons in Hl as [El _].
    unfold group_dicts in El at 1. rewrite length_fmap in El.
    simpl in El |- *. rewrite El. f_equal.
    apply groups_snapshot; [done..|]. by eapply placed_app_l.
Qed.

Lemma roles_loop_run h zs ys rs :
  Forall (role_typed h) rs →
  h !! Model_get_dict_defaults = Some (OList ys) →
  h !! Role_get_dict_defaults = Some (OList zs) →
  ∀ k,
    for_each (λ role, Role_get_dict role Role_get_dict_defaults) rs (h ++ k)
    = Some (role_locs (length (h ++ k)) h zs ys rs,
            (h ++ k) ++ role_blocks (length (h ++ k)) h zs ys rs).
Proof.
  intros Hrs Hm Hr. induction Hrs as [|r rs [Hc Hgs] _ IH]; intros k.
  - simpl. unfold ret. by rewrite app_nil_r.
  - cbn [for_each role_locs role_blocks].
    rewrite (bind_run _ _ _ _ _
               (Role_get_dict_run _ _ _ _ _ _ Hc Hgs Hm
                  (lookup_old _ k _ _ Hr))).
    set (blk := Role_block (length (h ++ k)) h zs ys r).
    rewrite <- (assoc_L (++) h k blk).
    rewrite (bind_run _ _ _ _ _ (IH _)). unfold ret.
    replace (length (h ++ k ++ blk)) with (length (h ++ k) + length blk)
      by (rewrite !length_app; lia).
    by rewrite <- !(assoc_L (++)).
Qed.

Lemma Employee_get_dict_run h k self e xs zs ys :
  class_of h self = Some Employee →
  Forall (role_typed h) (proxy h self) →
  h !! Model_get_dict_defaults = Some (OList ys) →
  h !! Role_get_dict_defaults = Some (OList zs) →
  (h ++ k) !! e = Some (OList xs) →
  Employee_get_dict self e (h ++ k)
  = Some (length (h ++ k),
          (h ++ k) ++ Employee_block (length (h ++ k)) h xs zs ys self).
Proof.
  intros Hc Hrs Hm Hr He.
  destruct (class_of_inst _ _ _ Hc) as (i & Ei & Ec).
  pose proof (lookup_old _ k _ _ Ei) as Ei'.
  unfold Employee_get_dict, Employee_block.
  rewrite <- Ec, (bind_run _ _ _ _ _ (self_of_run _ _ _ Ei')).
  rewrite (bind_run _ _ _ _ _ (Model_get_dict_run _ _ _ _ _ Ei' He)).
  rewrite (bind_run _ _ _ _ _
             (str_in_run _ _ _ "roles" (lookup_old _ [_] _ _ He))).
  rewrite (attrs_inst _ _ _ Ei), (proxy_inst _ _ _ Ei) in *.
  destruct (bool_decide (VStr "roles" ∈ xs)); simpl.
  - done.
  - rewrite !bind_assoc.
    rewrite (bind_run _ _ _ _ _
               (read_proxy_run _ _ _ (lookup_old _ [_] _ _ Ei'))).
    rewrite !bind_assoc.
    rewrite <- (assoc_L (++) h k).
    rewrite (bind_run _ _ _ _ _ (roles_loop_run _ _ _ _ Hrs Hm Hr _)).
    rewrite !bind_assoc.
    set (h1 := h ++ k ++ [ODict (kept xs (inst_dict i))]).
    assert (length h1 = S (length (h ++ k))) as Hl1.
    { unfold h1. rewrite !length_app. simpl. lia. }
    rewrite Hl1.
    set (rb := role_blocks (S (length (h ++ k))) h zs ys (inst_proxy i)).
    rewrite (bind_run _ _ _ _ _ (new_list_run _ _)).
    assert (h1 = (h ++ k) ++ [ODict (kept xs (inst_dict i))]) as Hh1.
    { unfold h1. by rewrite (assoc_L (++)). }
    erewrite bind_run; last first.
    { apply dict_update_run with (d := kept xs (inst_dict i)).
      rewrite Hh1, <- !(assoc_L (++) (h ++ k)).
      by rewrite lookup_app_r, Nat.sub_diag. }
    unfold ret. f_equal. f_equal.
    rewrite (length_app h1 rb), Hl1.
    rewrite Hh1, <- !(assoc_L (++) (h ++ k)).
    by rewrite insert_app_r_alt, Nat.sub_diag by lia.
Qed.

Lemma roles_snapshot h H zs ys n :
  closed h → h ⊑ H →
  ∀ rs base,
    placed H base (role_blocks base h zs ys rs) →
    snapshot n H <$> (VRef <$> role_locs base h zs ys rs)
    = Role_view n h zs ys <$> rs.
Proof.
  intros Hc Hs. induction rs as [|r rs IH]; intros base Hp; [done|].
  cbn [role_locs role_blocks] in *. rewrite !fmap_cons. f_equal.
  - apply Role_snapshot; [done..|]. by eapply placed_app_l.
  - apply IH. by apply placed_app_r.
Qed.

Lemma Employee_snapshot h H xs zs ys self base :
  closed h → h ⊑ H →
  placed H base (Employee_block base h xs zs ys self) →
  ∀ n, snapshot n H (VRef base) = Employee_view n h xs zs ys self.
Proof.
  intros Hc Hs Hp [|n]; [done|]. unfold Employee_block in Hp. simpl.
  destruct (bool_decide (VStr "roles" ∈ xs)).
  - apply placed_cons in Hp as [E _]. rewrite E. by rewrite kept_snapshot.
  - apply placed_cons in Hp as [E Hp]. rewrite E, fmap_insert.
    rewrite kept_snapshot by done. do 2 f_equal.
    destruct n as [|n]; [done|].
    pose proof (placed_app_r _ _ _ _ Hp) as Hl.
    apply placed_cons in Hl as [El _].
    simpl in El |- *. rewrite El. f_equal.
    apply roles_snapshot; [done..|]. by eapply placed_app_l.
Qed.

(** ** The method call [r.get_dict(excludes)] on a well-formed store *)

Lemma wf_groups h r i :
  typed h → h !! r = Some (OInst i) → inst_class i = Role →
  Forall (λ g, class_of h g = Some Group) (proxy h r).
Proof.
  intros Ht E Ec. rewrite (proxy_inst _ _ _ E).
  pose proof (proj1 (Forall_lookup _ _) Ht _ _ E) as Hp.
  simpl in Hp. by rewrite Ec in Hp.
Qed.

Lemma wf_roles h e i :
  typed h → h !! e = Some (OInst i) → inst_class i = Employee →
  Forall (role_typed h) (proxy h e).
Proof.
  intros Ht E Ec. rewrite (proxy_inst _ _ _ E).
  pose proof (proj1 (Forall_lookup _ _) Ht _ _ E) as Hp.
  simpl in Hp. rewrite Ec in Hp.
  eapply Forall_impl; [exact Hp|]. intros r Hr. split; [done|].
  destruct (class_of_inst _ _ _ Hr) as (ir & Er & Ecr).
  by eapply wf_groups.
Qed.

Lemma get_dict_dispatch H self e i :
  H !! self = Some (OInst i) →
  get_dict self e H
  = match inst_class i with
    | User => User_get_dict
    | Employee => Employee_get_dict
    | App => App_get_dict
    | Role => Role_get_dict
    | Group => Group_get_dict
    | EmployeeToRole => EmployeeToRole_get_dict
    | RoleToGroup => RoleToGroup_get_dict
    end self e H.
Proof.
  intros E. unfold get_dict. rewrite (bind_run _ _ _ _ _ (read_inst_run _ _ _ E)).
  by destruct (inst_class i).
Qed.

Lemma wf_runnable h : wf_heap h → runnable h.
Proof. by intros (_ & Ht & Hm & _ & Hr & _). Qed.

Lemma get_dict_run h k self e i xs :
  runnable h → h !! self = Some (OInst i) →
  (h ++ k) !! e = Some (OList xs) →
  get_dict self e (h ++ k)
  = Some (length (h ++ k),
          <[e := OList (excludes_after (inst_class i) xs)]> (h ++ k)
          ++ method_block (inst_class i) (length (h ++ k)) h xs self).
Proof.
  intros (Ht & Hm & Hr) Ei He.
  pose proof (lookup_old _ k _ _ Ei) as Ei'.
  assert (class_of h self = Some (inst_class i)) as Hcl
    by (unfold class_of; by rewrite Ei).
  rewrite (get_dict_dispatch _ _ _ _ Ei').
  destruct (inst_class i) eqn:Ec; simpl;
    rewrite ?(list_insert_id _ _ _ He), ?(attrs_inst _ _ _ Ei).
  - by apply User_get_dict_run.
  - apply Employee_get_dict_run; [done| |done..]. by eapply wf_roles.
  - by apply App_get_dict_run.
  - apply Role_get_dict_run; [done| |done..]. by eapply wf_groups.
  - by apply Group_get_dict_run.
  - by apply EmployeeToRole_get_dict_run.
  - by apply RoleToGroup_get_dict_run.
Qed.

Lemma method_snapshot c h H xs self base :
  closed h → h ⊑ H →
  placed H base (method_block c base h xs self) →
  ∀ n, snapshot n H (VRef base) = method_view c n h xs self.
Proof.
  intros Hc Hs Hp.
  destruct c; simpl in *;
    first [ by apply Employee_snapshot
          | by apply Role_snapshot
          | apply placed_cons in Hp as [E _]; by apply Model_snapshot ].
Qed.

Lemma get_dict_with_run h k self i xs :
  runnable h → h !! self = Some (OInst i) →
  get_dict_with xs self (h ++ k)
  = Some (S (length (h ++ k)),
          (h ++ k)
          ++ OList (excludes_after (inst_class i) xs)
             :: method_block (inst_class i) (S (length (h ++ k))) h xs self).
Proof.
  intros Hwf Ei. unfold get_dict_with.
  rewrite (bind_run _ _ _ _ _ (new_list_run _ _)).
  rewrite <- (assoc_L (++) h k).
  rewrite (get_dict_run h _ self _ i xs Hwf Ei).
  - rewrite (assoc_L (++) h k), insert_snoc.
    rewrite length_app, Nat.add_1_r. by rewrite <- (assoc_L (++) (h ++ k)).
  - rewrite (assoc_L (++) h k). apply lookup_snoc.
Qed.

Example sample_heap_wf : wf_heap sample_heap.
Proof. apply (bool_decide_unpack _). vm_compute. exact I. Qed.

(** ** Properties of the results *)

Lemma kept_nil d : kept [] d = d.
Proof.
  apply map_eq. intros s. rewrite kept_lookup.
  destruct (decide _) as [Hin|]; [by apply elem_of_nil in Hin|done].
Qed.

(** The first object of the block is the result dictionary: no excluded
    key is bound in it, and apart from the relationship key it is the
    filtered copy of the attributes. *)
Lemma method_block_head c base h xs self :
  ∃ m rest,
    method_block c base h xs self = ODict m :: rest
    ∧ (∀ s, VStr s ∈ excludes_after c xs → m !! s = None)
    ∧ (∀ s, proxy_name c ≠ Some s →
            m !! s = kept (excludes_after c xs) (attrs h self) !! s).
Proof.
  assert (∀ s, VStr s ∈ xs → kept xs (attrs h self) !! s = None) as Hk.
  { intros s Hs. rewrite kept_lookup. by rewrite decide_True. }
  destruct c; simpl;
    try (eexists _, _; split; [done|]; split; [|done];
         intros s Hs; rewrite kept_lookup; by rewrite decide_True).
  - unfold Employee_block. case_bool_decide as Hr.
    + by eexists _, _.
    + eexists _, _. split; [done|]. split.
      * intros s Hs. rewrite lookup_insert_ne; [by apply Hk|].
        by intros <-.
      * intros s Hs. rewrite lookup_insert_ne; [done|]. congruence.
  - unfold Role_block. case_bool_decide as Hr.
    + by eexists _, _.
    + eexists _, _. split; [done|]. split.
      * intros s Hs. rewrite lookup_insert_ne; [by apply Hk|].
        by intros <-.
      * intros s Hs. rewrite lookup_insert_ne; [done|]. congruence.
Qed.

Lemma excludes_after_incl c xs v : v ∈ xs → v ∈ excludes_after c xs.
Proof. destruct c; simpl; try done. intros Hv. apply elem_of_app. by left. Qed.

(** The call succeeds, returns the next free location, leaves everything
    but the exclusion list as it was and appends its block. *)
Lemma get_dict_result h self e i xs :
  runnable h → h !! self = Some (OInst i) → h !! e = Some (OList xs) →
  get_dict self e h
  = Some (length h,
          <[e := OList (excludes_after (inst_class i) xs)]> h
          ++ method_block (inst_class i) (length h) h xs self).
Proof.
  intros Hr Ei He.
  pose proof (get_dict_run h [] self e i xs Hr Ei) as Hrun.
  rewrite app_nil_r in Hrun. by apply Hrun.
Qed.

Lemma lookup_result (h : heap) e o blk m rest :
  blk = ODict m :: rest →
  (<[e := o]> h ++ blk) !! length h = Some (ODict m).
Proof.
  intros ->. rewrite lookup_app_r; rewrite length_insert; [|lia].
  by rewrite Nat.sub_diag.
Qed.

Lemma get_dict_App_run h self e i xs :
  h !! self = Some (OInst i) → inst_class i = App →
  h !! e = Some (OList xs) →
  get_dict self e h
  = Some (length h,
          <[e := OList (xs ++ [VStr "token"])]> h
          ++ [ODict (kept (xs ++ [VStr "token"]) (inst_dict i))]).
Proof.
  intros Ei Ec Ee. rewrite (get_dict_dispatch _ _ _ _ Ei), Ec.
  by apply App_get_dict_run.
Qed.

Lemma token_in_after xs : VStr "token" ∈ xs ++ [VStr "token"].
Proof. apply elem_of_app. right. by apply list_elem_of_singleton. Qed.



(** C2: for a record of any of the seven classes and any exclusion list,
    the dictionary returned by [get_dict] binds no key that occurs in the
    list; the inherited method returns a new dictionary that holds every
    attribute of the record except those named in the list. *)
Theorem get_dict_drops_excluded h self e i xs :
  wf_heap h → h !! self = Some (OInst i) → h !! e = Some (OList xs) →
  (∃ d h' m,
      get_dict self e h = Some (d, h')
      ∧ h' !! d = Some (ODict m)
      ∧ ∀ s, VStr s ∈ xs → m !! s = None)
  ∧ (∃ m0,
      Model_get_dict self e h = Some (length h, h ++ [ODict m0])
      ∧ ∀ s, m0 !! s = if decide (VStr s ∈ xs) then None else inst_dict i !! s).
Proof.
  intros Hwf Ei Ee. split.
  - destruct (method_block_head (inst_class i) (length h) h xs self)
      as (m & rest & Hb & Hex & _).
    eexists _, _, m.
    split; [by apply get_dict_result; [apply wf_runnable|..]|].
    split; [by eapply lookup_result|].
    intros s Hs. by apply Hex, excludes_after_incl.
  - eexists. split; [by apply Model_get_dict_run|].
    intros s. apply kept_lookup.
Qed.

Lemma get_dict_drops_excluded_witness :
  (∃ d h' m,
      get_dict 8 12 sample_heap = Some (d, h')
      ∧ h' !! d = Some (ODict m)
      ∧ ∀ s, VStr s ∈ sample_excludes → m !! s = None)
  ∧ (∃ m0,
      Model_get_dict 8 12 sample_heap
      = Some (length sample_heap, sample_heap ++ [ODict m0])
      ∧ ∀ s, m0 !! s
             = if decide (VStr s ∈ sample_excludes) then None
               else inst_dict sample_employee !! s).
Proof.
  apply (get_dict_drops_excluded sample_heap 8 12
           sample_employee sample_excludes).
  - apply (bool_decide_unpack _). vm_compute. exact I.
  - reflexivity.
  - reflexivity.
Defined.

(** C5: [App.get_dict] appends ['token'] to the very list object it was
    handed, and then runs the inherited method on that list: after the call
    the caller's list ends in ['token']. *)
Theorem App_get_dict_appends_token h self e i xs :
  h !! self = Some (OInst i) → inst_class i = App →
  h !! e = Some (OList xs) →
  ∃ d h',
    get_dict self e h = Some (d, h')
    ∧ h' !! e = Some (OList (xs ++ [VStr "token"]))
    ∧ VStr "token" ∈ xs ++ [VStr "token"]
    ∧ Model_get_dict self e (<[e := OList (xs ++ [VStr "token"])]> h)
      = Some (d, h').
Proof.
  intros Ei Ec Ee.
  assert (e < length h) as Hlt by (by eapply lookup_lt_Some).
  assert (e ≠ self) as Hne by (intros ->; congruence).
  eexists _, _. split; [by apply get_dict_App_run|]. split; [|split].
  - apply lookup_old. by apply list_lookup_insert_eq.
  - apply token_in_after.
  - rewrite (Model_get_dict_run _ self e i (xs ++ [VStr "token"])).
    + by rewrite length_insert.
    + by rewrite list_lookup_insert_ne.
    + by apply list_lookup_insert_eq.
Qed.

Lemma App_get_dict_appends_token_witness :
  ∃ d h',
    get_dict 9 12 sample_heap = Some (d, h')
    ∧ h' !! 12 = Some (OList (sample_excludes ++ [VStr "token"]))
    ∧ VStr "token" ∈ sample_excludes ++ [VStr "token"]
    ∧ Model_get_dict 9 12
        (<[12 := OList (sample_excludes ++ [VStr "token"])]> sample_heap)
      = Some (d, h').
Proof.
  apply (App_get_dict_appends_token sample_heap 9 12
           sample_app1 sample_excludes); reflexivity.
Defined.





Lemma placed_tail (h : heap) o blk k :
  placed (h ++ (o :: blk) ++ k) (S (length h)) blk.
Proof.
  pose proof (placed_app h (o :: blk) k) as Hp.
  by apply placed_cons in Hp as [_ Hp].
Qed.



Lemma lookup_block (h blk : heap) j :
  (h ++ blk) !! (length h + j) = blk !! j.
Proof.
  rewrite lookup_app_r by lia. f_equal. lia.
Qed.



(** ** The expanded relationships *)

(** A record's own [get_dict([])], run in any later store. *)
Lemma own_get_dict h k l il :
  closed h → runnable h → h !! l = Some (OInst il) →
  ∃ d0 h0,
    get_dict_with [] l (h ++ k) = Some (d0, h0)
    ∧ ∀ n, snapshot n h0 (VRef d0) = method_view (inst_class il) n h [] l.
Proof.
  intros Hc Hr El. eexists _, _.
  split; [by apply get_dict_with_run|].
  apply method_snapshot; [done| |].
  - rewrite <- (assoc_L (++)). apply preserved_app.
  - rewrite <- (app_nil_r (_ :: _)). apply placed_tail.
Qed.



Lemma groups_lookup h H ys :
  closed h → h ⊑ H →
  ∀ gs base,
    placed H base (group_dicts h ys gs) →
    ∀ j g, gs !! j = Some g →
      ∃ mj,
        seq base (length gs) !! j = Some (base + j)
        ∧ H !! (base + j) = Some (ODict mj)
        ∧ ∀ n, snapshot n H (VRef (base + j)) = Model_view n h ys g.
Proof.
  intros Hc Hs gs base Hp j g Ej.
  assert (H !! (base + j) = Some (ODict (kept ys (attrs h g)))) as E.
  { apply Hp. unfold group_dicts. by rewrite list_lookup_fmap, Ej. }
  eexists. split; [|split; [exact E|by apply Model_snapshot]].
  apply lookup_seq. split; [done|]. by eapply lookup_lt_Some.
Qed.


(** C4: with ['groups'] not excluded, [Role.get_dict] binds ['groups'] to
    a list with one dictionary per associated group, in order, each equal
    to what that group's own [get_dict([])] returns (whether that is run
    before or after); with ['groups'] excluded the key is absent. *)
Theorem Role_get_dict_groups h self e i xs :
  wf_heap h → h !! self = Some (OInst i) → inst_class i = Role →
  h !! e = Some (OList xs) →
  ∃ d h' m,
    get_dict self e h = Some (d, h')
    ∧ h' !! d = Some (ODict m)
    ∧ (VStr "groups" ∈ xs → m !! "groups" = None)
    ∧ (VStr "groups" ∉ xs →
       ∃ groups ds,
         m !! "groups" = Some (VRef groups)
         ∧ h' !! groups = Some (OList (VRef <$> ds))
         ∧ length ds = length (inst_proxy i)
         ∧ ∀ j g, inst_proxy i !! j = Some g →
             ∃ dj mj,
               ds !! j = Some dj
               ∧ h' !! dj = Some (ODict mj)
               ∧ ∀ H, H = h ∨ H = h' →
                   ∃ d0 h0,
                     get_dict_with [] g H = Some (d0, h0)
                     ∧ ∀ n, snapshot n h' (VRef dj)
                            = snapshot n h0 (VRef d0)).
Proof.
  intros Hwf Ei Ec Ee. pose proof (wf_runnable _ Hwf) as Hr.
  pose proof Hwf as (Hc & Ht & _).
  pose proof (get_dict_result h self e i xs Hr Ei Ee) as Hrun.
  rewrite Ec in Hrun. simpl in Hrun. rewrite (list_insert_id _ _ _ Ee) in Hrun.
  set (blk := Role_block (length h) h xs [] self) in *.
  exists (length h), (h ++ blk).
  assert (placed (h ++ blk) (length h) blk) as Hp.
  { rewrite <- (app_nil_r blk) at 1. apply placed_app. }
  pose proof (wf_groups _ _ _ Ht Ei Ec) as Hgs.
  unfold blk, Role_block in *. rewrite (attrs_inst _ _ _ Ei) in *.
  rewrite (proxy_inst _ _ _ Ei) in *.
  case_bool_decide as Hin.
  - eexists. split; [done|]. split; [by rewrite lookup_snoc|].
    split; [|done]. intros _. rewrite kept_lookup. by rewrite decide_True.
  - eexists. split; [done|].
    apply placed_cons in Hp as [Ed Hp]. split; [exact Ed|].
    split; [done|]. intros _.
    pose proof (placed_app_r _ _ _ _ Hp) as Hl.
    apply placed_cons in Hl as [El _].
    unfold group_dicts in El at 1. rewrite length_fmap in El.
    eexists _, _. split; [by rewrite lookup_insert_eq|].
    split; [exact El|]. split; [by rewrite length_seq|].
    intros j g Ej.
    destruct (groups_lookup h _ [] Hc (preserved_app h _) _ _
                (placed_app_l _ _ _ _ Hp) j g Ej) as (mj & Es & Edj & Hsnap).
    exists (S (length h) + j), mj. split; [done|]. split; [done|].
    destruct (class_of_inst _ _ _ (proj1 (Forall_lookup _ _) Hgs _ _ Ej))
      as (ig & Eg & Ecg).
    assert (∀ k, ∃ d0 h0,
               get_dict_with [] g (h ++ k) = Some (d0, h0)
               ∧ ∀ n, snapshot n h0 (VRef d0) = Model_view n h [] g) as Hown.
    { intros k. destruct (own_get_dict h k g ig Hc Hr Eg) as (d0 & h0 & R & V).
      exists d0, h0. split; [done|]. intros n. rewrite V, Ecg. done. }
    intros H [->| ->].
    + destruct (Hown []) as (d0 & h0 & R & V). rewrite app_nil_r in R.
      exists d0, h0. split; [done|]. intros n. by rewrite Hsnap, V.
    + destruct (Hown (ODict
                        (<["groups" := VRef (S (length h)
                                             + length (inst_proxy i))]>
                           (kept xs (inst_dict i)))
                      :: group_dicts h [] (inst_proxy i)
                      ++ [OList (VRef <$> seq (S (length h))
                                   (length (inst_proxy i)))]))
        as (d0 & h0 & R & V).
      exists d0, h0. split; [done|]. intros n. by rewrite Hsnap, V.
Qed.

Lemma Role_get_dict_groups_witness :
  ∃ d h' m,
    get_dict 6 12 sample_heap = Some (d, h')
    ∧ h' !! d = Some (ODict m)
    ∧ (VStr "groups" ∈ sample_excludes → m !! "groups" = None)
    ∧ (VStr "groups" ∉ sample_excludes →
       ∃ groups ds,
         m !! "groups" = Some (VRef groups)
         ∧ h' !! groups = Some (OList (VRef <$> ds))
         ∧ length ds = length (inst_proxy sample_role1)
         ∧ ∀ j g, inst_proxy sample_role1 !! j = Some g →
             ∃ dj mj,
               ds !! j = Some dj
               ∧ h' !! dj = Some (ODict mj)
               ∧ ∀ H, H = sample_heap ∨ H = h' →
                   ∃ d0 h0,
                     get_dict_with [] g H = Some (d0, h0)
                     ∧ ∀ n, snapshot n h' (VRef dj)
                            = snapshot n h0 (VRef d0)).
Proof.
  apply (Role_get_dict_groups sample_heap 6 12 sample_role1 sample_excludes).
  - apply (bool_decide_unpack _). vm_compute. exact I.
  - reflexivity.
  - reflexivity.
  - reflexivity.
Defined.



(** ** Names in the exclusion list that the record does not have *)

Section other_list.
Variables (h : heap) (e : loc) (xs xs' : list value).
Hypothesis He : h !! e = Some (OList xs).

Local Abbreviation h2 := (<[e := OList xs']> h).

Lemma other_list_lookup l : l ≠ e → h2 !! l = h !! l.
Proof. intros Hne. by rewrite list_lookup_insert_ne. Qed.

Lemma other_list_lookup_e : h2 !! e = Some (OList xs').
Proof.
  apply list_lookup_insert_eq. by eapply lookup_lt_Some.
Qed.

Lemma other_list_class l : class_of h2 l = class_of h l.
Proof.
  unfold class_of. destruct (decide (l = e)) as [->|Hne].
  - by rewrite other_list_lookup_e, He.
  - by rewrite other_list_lookup.
Qed.

Lemma other_list_attrs l : attrs h2 l = attrs h l.
Proof.
  unfold attrs. destruct (decide (l = e)) as [->|Hne].
  - by rewrite other_list_lookup_e, He.
  - by rewrite other_list_lookup.
Qed.

Lemma other_list_proxy l : proxy h2 l = proxy h l.
Proof.
  unfold proxy. destruct (decide (l = e)) as [->|Hne].
  - by rewrite other_list_lookup_e, He.
  - by rewrite other_list_lookup.
Qed.

Lemma other_list_typed : typed h → typed h2.
Proof.
  intros Ht. apply Forall_lookup. intros l o E.
  destruct (decide (l = e)) as [->|Hne].
  - rewrite other_list_lookup_e in E. by injection E as <-.
  - rewrite other_list_lookup in E by done.
    pose proof (proj1 (Forall_lookup _ _) Ht _ _ E) as Hp.
    destruct o as [| |i]; try done. simpl in *.
    destruct (inst_class i); try done;
      (eapply Forall_impl; [exact Hp|]);
      intros r Hr; by rewrite other_list_class.
Qed.

Lemma other_list_runnable :
  Role_get_dict_defaults < e → runnable h → runnable h2.
Proof.
  unfold Role_get_dict_defaults. intros Hlt (Ht & Hm & Hr).
  split; [by apply other_list_typed|].
  split; (rewrite other_list_lookup; [done|]).
  - unfold Model_get_dict_defaults. lia.
  - unfold Role_get_dict_defaults. lia.
Qed.

Lemma other_list_group_dicts ys gs :
  group_dicts h2 ys gs = group_dicts h ys gs.
Proof.
  unfold group_dicts. apply list_fmap_ext. intros _ g _.
  by rewrite other_list_attrs.
Qed.

Lemma other_list_Role_block base zs ys r :
  Role_block base h2 zs ys r = Role_block base h zs ys r.
Proof.
  unfold Role_block.
  by rewrite other_list_attrs, other_list_proxy, other_list_group_dicts.
Qed.

Lemma other_list_role_locs zs ys rs base :
  role_locs base h2 zs ys rs = role_locs base h zs ys rs.
Proof.
  revert base. induction rs as [|r rs IH]; intros base; [done|].
  simpl. by rewrite other_list_Role_block, IH.
Qed.

Lemma other_list_role_blocks zs ys rs base :
  role_blocks base h2 zs ys rs = role_blocks base h zs ys rs.
Proof.
  revert base. induction rs as [|r rs IH]; intros base; [done|].
  simpl. by rewrite other_list_Role_block, IH.
Qed.

Lemma other_list_block c base ws self :
  method_block c base h2 ws self = method_block c base h ws self.
Proof.
  destruct c; simpl; rewrite ?other_list_attrs; try done.
  - unfold Employee_block.
    by rewrite other_list_attrs, other_list_proxy,
      other_list_role_blocks, other_list_role_locs.
  - apply other_list_Role_block.
Qed.
End other_list.

Lemma kept_agree xs xs' d :
  (∀ s, is_Some (d !! s) → VStr s ∈ xs' ↔ VStr s ∈ xs) →
  kept xs' d = kept xs d.
Proof.
  intros Hag. apply map_eq. intros s. rewrite !kept_lookup.
  destruct (d !! s) as [v|] eqn:E; [|by repeat case_decide].
  destruct (Hag s) as [H1 H2]; [by eexists|].
  repeat case_decide; try done; tauto.
Qed.




(** ** Well-formedness is an invariant

    The store of the freshly loaded module is well formed
    ([module_heap_wf]), and the constructors and [get_dict] keep it so, as
    long as an App is serialised with its own default list or with a list
    of the caller. *)

Lemma val_ok_mono n n' v : n ≤ n' → val_ok n v → val_ok n' v.
Proof. destruct v; simpl; try done. lia. Qed.

Lemma obj_ok_mono n n' o : n ≤ n' → obj_ok n o → obj_ok n' o.
Proof.
  intros Hle. destruct o as [xs|d|i]; simpl.
  - intros Hx. eapply Forall_impl; [exact Hx|].
    intros v. by apply val_ok_mono.
  - intros Hd. eapply map_Forall_impl; [exact Hd|].
    intros ? v. by apply val_ok_mono.
  - intros [Hd Hp]. split.
    + eapply map_Forall_impl; [exact Hd|]. intros ? v. by apply val_ok_mono.
    + eapply Forall_impl; [exact Hp|]. intros l. simpl. lia.
Qed.

Lemma group_dicts_ok h ys gs n :
  closed h → length h ≤ n → Forall (obj_ok n) (group_dicts h ys gs).
Proof.
  intros Hc Hle. unfold group_dicts. apply Forall_fmap, Forall_forall.
  intros g _. simpl. apply kept_ok.
  eapply map_Forall_impl; [by apply attrs_ok|].
  intros ? v. by apply val_ok_mono.
Qed.

Lemma Role_block_length base h xs ys r :
  length (Role_block base h xs ys r)
  = if bool_decide (VStr "groups" ∈ xs) then 1
    else S (S (length (proxy h r))).
Proof.
  unfold Role_block, group_dicts. case_bool_decide; [done|].
  simpl. rewrite length_app, length_fmap. simpl. lia.
Qed.

Lemma Role_block_ok base h xs ys r n :
  closed h → length h ≤ base →
  base + length (Role_block base h xs ys r) ≤ n →
  Forall (obj_ok n) (Role_block base h xs ys r).
Proof.
  intros Hc Hb Hn. rewrite Role_block_length in Hn. unfold Role_block.
  assert (map_Forall (λ _, val_ok n) (kept xs (attrs h r))) as Hk.
  { apply kept_ok.
    eapply map_Forall_impl; [by apply attrs_ok|].
    intros ? v. apply val_ok_mono. lia. }
  revert Hn. case_bool_decide; intros Hn.
  - by constructor.
  - constructor.
    + simpl. apply map_Forall_insert_2; [simpl; lia|done].
    + apply Forall_app. split; [apply group_dicts_ok; [done|lia]|].
      constructor; [|done]. simpl. apply Forall_fmap, Forall_forall.
      intros l Hl. apply elem_of_seq in Hl. simpl. lia.
Qed.

Lemma role_blocks_ok h zs ys n :
  closed h →
  ∀ rs base,
    length h ≤ base →
    base + length (role_blocks base h zs ys rs) ≤ n →
    Forall (obj_ok n) (role_blocks base h zs ys rs)
    ∧ Forall (λ l, l < n) (role_locs base h zs ys rs).
Proof.
  intros Hc. induction rs as [|r rs IH]; intros base Hb Hn; [done|].
  cbn [role_blocks role_locs] in *. rewrite length_app in Hn.
  pose proof (Role_block_length base h zs ys r) as Hlen.
  destruct (IH (base + length (Role_block base h zs ys r))) as [Ho Hl];
    [lia..|].
  split.
  - apply Forall_app. split; [|done]. apply Role_block_ok; [done..|lia].
  - constructor; [|done]. revert Hlen. case_bool_decide; lia.
Qed.

Lemma method_block_ok c h xs self :
  closed h → Forall (val_ok (length h)) xs →
  Forall (obj_ok (length h + length (method_block c (length h) h xs self)))
    (method_block c (length h) h xs self).
Proof.
  intros Hc Hxs.
  assert (∀ n ws, length h ≤ n →
            map_Forall (λ _, val_ok n) (kept ws (attrs h self))) as Hk.
  { intros n ws Hn. apply kept_ok.
    eapply map_Forall_impl; [by apply attrs_ok|].
    intros ? v. by apply val_ok_mono. }
  destruct c; simpl;
    try (constructor; [|done]; simpl; apply Hk; lia).
  - unfold Employee_block. case_bool_decide.
    + constructor; [|done]. simpl. apply Hk. lia.
    + set (rs := proxy h self).
      set (rb := role_blocks (S (length h)) h [] [] rs).
      simpl. rewrite length_app. simpl.
      destruct (role_blocks_ok h [] [] (length h + S (length rb + 1)) Hc
                  rs (S (length h))) as [Ho Hl]; [lia|fold rb; lia|].
      constructor.
      * simpl. apply map_Forall_insert_2; [simpl; lia|]. apply Hk. lia.
      * apply Forall_app. split; [done|]. constructor; [|done].
        simpl. by apply Forall_fmap.
  - apply Role_block_ok; [done|lia|lia].
Qed.

Lemma Role_block_plain base h xs ys r :
  Forall plain (Role_block base h xs ys r).
Proof.
  unfold Role_block, group_dicts. case_bool_decide; [by repeat constructor|].
  constructor; [done|]. apply Forall_app. split; [|by repeat constructor].
  apply Forall_fmap, Forall_forall. by intros g _.
Qed.

Lemma role_blocks_plain h zs ys rs base :
  Forall plain (role_blocks base h zs ys rs).
Proof.
  revert base. induction rs as [|r rs IH]; intros base; [done|].
  cbn [role_blocks]. apply Forall_app. split; [apply Role_block_plain|apply IH].
Qed.

Lemma method_block_plain c base h xs self :
  Forall plain (method_block c base h xs self).
Proof.
  destruct c; simpl; try (by repeat constructor).
  - unfold Employee_block. case_bool_decide; [by repeat constructor|].
    constructor; [done|]. apply Forall_app.
    split; [apply role_blocks_plain|by repeat constructor].
  - apply Role_block_plain.
Qed.

Lemma class_of_after (h : heap) e xs ws blk l c :
  h !! e = Some (OList xs) →
  class_of h l = Some c →
  class_of (<[e := OList ws]> h ++ blk) l = Some c.
Proof.
  intros Ee Hc. apply class_of_old.
  by rewrite (other_list_class h e xs ws Ee).
Qed.

Lemma get_dict_keeps_wf h self e i xs d h' :
  wf_heap h → h !! self = Some (OInst i) → h !! e = Some (OList xs) →
  (inst_class i = App →
   e = App_get_dict_defaults ∨ Role_get_dict_defaults < e) →
  get_dict self e h = Some (d, h') →
  wf_heap h'.
Proof.
  intros Hwf Ei Ee Happ Hrun.
  rewrite (get_dict_result h self e i xs (wf_runnable _ Hwf) Ei Ee) in Hrun.
  injection Hrun as _ <-.
  destruct Hwf as (Hc & Ht & Hm & Hem & Hr & Ha).
  set (c := inst_class i) in *.
  set (blk := method_block c (length h) h xs self).
  assert (e < length h) as Hlt by (by eapply lookup_lt_Some).
  pose proof (closed_lookup _ _ _ Hc Ee) as Hxs. simpl in Hxs.
  split; [|split].
  - unfold closed. rewrite length_app, length_insert.
    apply Forall_app. split; [|by apply method_block_ok].
    apply Forall_insert.
    + eapply Forall_impl; [exact Hc|]. intros o. apply obj_ok_mono. lia.
    + simpl. destruct c; simpl;
        try (eapply Forall_impl; [exact Hxs|];
             intros v; apply val_ok_mono; lia).
      apply Forall_app. split; [|by repeat constructor].
      eapply Forall_impl; [exact Hxs|]. intros v. apply val_ok_mono. lia.
  - unfold typed. apply Forall_app. split.
    + apply Forall_insert; [|done].
      eapply Forall_impl; [exact Ht|]. intros [| |j]; try done. simpl.
      destruct (inst_class j); try done;
        (intros Hj; eapply Forall_impl; [exact Hj|]);
        intros l; by apply (class_of_after h e xs).
    + eapply Forall_impl; [apply method_block_plain|].
      by intros [| |j].
  - assert (∀ l o, l < length h → l ≠ e ∨ excludes_after c xs = xs →
              h !! l = Some o →
              (<[e := OList (excludes_after c xs)]> h ++ blk) !! l = Some o)
      as Hkeep.
    { intros l o Hl [Hne|Heq] El; apply lookup_old.
      - by rewrite list_lookup_insert_ne.
      - rewrite Heq. by rewrite list_insert_id. }
    assert (c = App ∨ excludes_after c xs = xs) as Hcase.
    { destruct c; simpl; auto. }
    assert (∀ l o, l ≠ App_get_dict_defaults → l ≤ Role_get_dict_defaults →
              h !! l = Some o →
              (<[e := OList (excludes_after c xs)]> h ++ blk) !! l = Some o)
      as Hdef.
    { intros l o Hl1 Hl2 El. apply Hkeep; [by eapply lookup_lt_Some| |done].
      destruct Hcase as [Hc'|Hc']; [|by right]. left.
      destruct (Happ Hc') as [->|Hgt]; [done|]. lia. }
    unfold defaults_ok.
    split; [apply Hdef; [done| |done]|].
    { unfold Model_get_dict_defaults, Role_get_dict_defaults. lia. }
    split; [apply Hdef; [done| |done]|].
    { unfold Employee_get_dict_defaults, Role_get_dict_defaults. lia. }
    split; [apply Hdef; [done| |done]|].
    { unfold Role_get_dict_defaults. lia. }
    unfold only_token in *.
    destruct (h !! App_get_dict_defaults) as [[ws| |]|] eqn:Ea; try done.
    destruct (decide (e = App_get_dict_defaults)) as [->|Hne].
    + rewrite (lookup_old _ blk _ _ (list_lookup_insert_eq _ _ _ Hlt)).
      rewrite Ee in Ea. injection Ea as <-.
      destruct Hcase as [Hc'|Hc']; [|by rewrite Hc'].
      rewrite Hc'. simpl. apply Forall_app. split; [done|by repeat constructor].
    + by rewrite (Hkeep _ _ (lookup_lt_Some _ _ _ Ea) (or_introl (not_eq_sym Hne)) Ea).
Qed.

Lemma new_instance_keeps_wf h c (d : gmap string value) :
  wf_heap h → map_Forall (λ _, val_ok (length h)) d →
  wf_heap (h ++ [OInst (Instance c d [])]).
Proof.
  intros (Hc & Ht & Hm & Hem & Hr & Ha) Hd. split; [|split].
  - unfold closed. rewrite length_app. apply Forall_app. split.
    + eapply Forall_impl; [exact Hc|]. intros o. apply obj_ok_mono. lia.
    + constructor; [|done]. simpl. split; [|done].
      eapply map_Forall_impl; [exact Hd|]. intros ? v. apply val_ok_mono. lia.
  - unfold typed. apply Forall_app. split.
    + eapply Forall_impl; [exact Ht|]. intros [| |j]; try done. simpl.
      destruct (inst_class j); try done;
        (intros Hj; eapply Forall_impl; [exact Hj|]);
        intros l; by apply class_of_old.
    + constructor; [|done]. simpl. by destruct c.
  - unfold defaults_ok, only_token in *.
    destruct (h !! App_get_dict_defaults) as [[ws| |]|] eqn:Ea; try done.
    by rewrite !(lookup_old _ _ _ _ Hm), !(lookup_old _ _ _ _ Hem),
      !(lookup_old _ _ _ _ Hr), !(lookup_old _ _ _ _ Ea).
Qed.


(** ** What a call changes, and what the result holds *)

Lemma method_block_nonempty c base h xs self :
  0 < length (method_block c base h xs self).
Proof.
  destruct (method_block_head c base h xs self) as (m & rest & -> & _).
  simpl. lia.
Qed.

Lemma lookup_block_last (h : heap) o blk x n :
  n = length blk → (h ++ o :: blk ++ [x]) !! S (length h + n) = Some x.
Proof.
  intros ->. replace (S (length h + length blk))
    with (length h + S (length blk)) by lia.
  rewrite lookup_block. simpl. by rewrite lookup_app_r, Nat.sub_diag.
Qed.



(** X2: the result binds exactly the attributes of the record that are
    not excluded, each to the very value the record holds (a reference is
    carried over, the object behind it is not copied), and, for an Employee
    or a Role whose relationship is not excluded, the relationship key, bound
    to a new list, whatever attribute of that name the record has. *)
Theorem get_dict_entries h self e i xs :
  wf_heap h → h !! self = Some (OInst i) → h !! e = Some (OList xs) →
  ∃ d h' m,
    get_dict self e h = Some (d, h')
    ∧ h' !! d = Some (ODict m)
    ∧ (∀ s, proxy_name (inst_class i) ≠ Some s →
         m !! s = if decide (VStr s ∈ xs ∨ (inst_class i = App ∧ s = "token"))
                  then None else inst_dict i !! s)
    ∧ (∀ s l, m !! s = Some (VRef l) → proxy_name (inst_class i) ≠ Some s →
         l < length h)
    ∧ (∀ s, proxy_name (inst_class i) = Some s →
         if decide (VStr s ∈ xs) then m !! s = None
         else ∃ l ds, m !! s = Some (VRef l)
                      ∧ length h ≤ l
                      ∧ h' !! l = Some (OList ds)).
Proof.
  intros Hwf Ei Ee. pose proof (wf_runnable _ Hwf) as Hr.
  destruct Hwf as (Hc & _).
  destruct (method_block_head (inst_class i) (length h) h xs self)
    as (m & rest & Hb & _ & Hrest).
  rewrite (attrs_inst _ _ _ Ei) in Hrest.
  assert (∀ s, proxy_name (inst_class i) ≠ Some s →
            m !! s = if decide (VStr s ∈ xs ∨ (inst_class i = App ∧ s = "token"))
                     then None else inst_dict i !! s) as Hent.
  { intros s Hs. rewrite (Hrest s Hs), kept_lookup.
    assert (VStr s ∈ excludes_after (inst_class i) xs
            ↔ VStr s ∈ xs ∨ (inst_class i = App ∧ s = "token")) as Hiff.
    { destruct (inst_class i); simpl; try (intuition discriminate).
      rewrite elem_of_app, list_elem_of_singleton. intuition congruence. }
    repeat case_decide; try done; tauto. }
  eexists _, _, m. split; [by apply get_dict_result|].
  split; [by eapply lookup_result|]. split; [exact Hent|]. split.
  - intros s l Hm Hs. rewrite (Hent s Hs) in Hm.
    case_decide; [done|].
    pose proof (closed_lookup _ _ _ Hc Ei) as [Hd _].
    apply (Hd s _ Hm).
  - intros s Hs. revert Hb.
    destruct (inst_class i) eqn:Ec; simpl in Hs; try done;
      injection Hs as <-; simpl.
    + rewrite (list_insert_id _ _ _ Ee). unfold Employee_block.
      rewrite (attrs_inst _ _ _ Ei). case_bool_decide as Hin.
      * intros [= <- _]. rewrite decide_True by done.
        rewrite kept_lookup. by rewrite decide_True.
      * intros [= <- _]. rewrite decide_False by done.
        eexists _, _. split; [by rewrite lookup_insert_eq|]. split; [lia|].
        by apply lookup_block_last.
    + rewrite (list_insert_id _ _ _ Ee). unfold Role_block.
      rewrite (attrs_inst _ _ _ Ei). case_bool_decide as Hin.
      * intros [= <- _]. rewrite decide_True by done.
        rewrite kept_lookup. by rewrite decide_True.
      * intros [= <- _]. rewrite decide_False by done.
        eexists _, _. split; [by rewrite lookup_insert_eq|]. split; [lia|].
        apply lookup_block_last. unfold group_dicts. by rewrite length_fmap.
Qed.

Lemma get_dict_entries_witness :
  ∃ d h' m,
    get_dict 8 12 sample_heap = Some (d, h')
    ∧ h' !! d = Some (ODict m)
    ∧ (∀ s, proxy_name (inst_class sample_employee) ≠ Some s →
         m !! s = if decide (VStr s ∈ sample_excludes
                             ∨ (inst_class sample_employee = App ∧ s = "token"))
                  then None else inst_dict sample_employee !! s)
    ∧ (∀ s l, m !! s = Some (VRef l) →
         proxy_name (inst_class sample_employee) ≠ Some s →
         l < length sample_heap)
    ∧ (∀ s, proxy_name (inst_class sample_employee) = Some s →
         if decide (VStr s ∈ sample_excludes) then m !! s = None
         else ∃ l ds, m !! s = Some (VRef l)
                      ∧ length sample_heap ≤ l
                      ∧ h' !! l = Some (OList ds)).
Proof.
  apply (get_dict_entries sample_heap 8 12 sample_employee sample_excludes).
  - apply (bool_decide_unpack _). vm_compute. exact I.
  - reflexivity.
  - reflexivity.
Defined.

(** X3: with its relationship excluded, an Employee or a Role is
    serialised without looking at the related records: the call makes one
    new object, the filtered copy of the attributes, on any store, whatever
    the relationship holds. *)
Theorem excluded_relationship_not_traversed h self e i xs key :
  h !! self = Some (OInst i) → h !! e = Some (OList xs) →
  proxy_name (inst_class i) = Some key → VStr key ∈ xs →
  get_dict self e h = Some (length h, h ++ [ODict (kept xs (inst_dict i))]).
Proof.
  intros Ei Ee Hk Hin. rewrite (get_dict_dispatch _ _ _ _ Ei).
  destruct (inst_class i) eqn:Ec; simpl in Hk; try done; injection Hk as <-.
  - unfold Employee_get_dict.
    rewrite <- Ec, (bind_run _ _ _ _ _ (self_of_run _ _ _ Ei)).
    rewrite (bind_run _ _ _ _ _ (Model_get_dict_run _ _ _ _ _ Ei Ee)).
    rewrite (bind_run _ _ _ _ _
               (str_in_run _ _ _ "roles" (lookup_old _ [_] _ _ Ee))).
    by rewrite bool_decide_eq_true_2.
  - unfold Role_get_dict.
    rewrite <- Ec, (bind_run _ _ _ _ _ (self_of_run _ _ _ Ei)).
    rewrite (bind_run _ _ _ _ _ (Model_get_dict_run _ _ _ _ _ Ei Ee)).
    rewrite (bind_run _ _ _ _ _
               (str_in_run _ _ _ "groups" (lookup_old _ [_] _ _ Ee))).
    by rewrite bool_decide_eq_true_2.
Qed.

Lemma excluded_relationship_not_traversed_witness :
  get_dict 1 2 [OList []; OInst (Instance Employee ∅ [0; 7]);
                OList [VStr "roles"]]
  = Some (3, [OList []; OInst (Instance Employee ∅ [0; 7]);
              OList [VStr "roles"]]
             ++ [ODict (kept [VStr "roles"]
                          (inst_dict (Instance Employee ∅ [0; 7])))]).
Proof.
  apply (excluded_relationship_not_traversed
           [OList []; OInst (Instance Employee ∅ [0; 7]); OList [VStr "roles"]]
           1 2 (Instance Employee ∅ [0; 7]) [VStr "roles"] "roles").
  - reflexivity.
  - reflexivity.
  - reflexivity.
  - apply (bool_decide_unpack _). vm_compute. exact I.
Defined.

Lemma kept_same_names xs xs' d :
  (∀ name, VStr name ∈ xs' ↔ VStr name ∈ xs) → kept xs' d = kept xs d.
Proof. intros Hag. apply kept_agree. intros s _. apply Hag. Qed.

Lemma method_block_same_names c base h xs xs' self :
  (∀ name, VStr name ∈ xs' ↔ VStr name ∈ xs) →
  method_block c base h xs' self = method_block c base h xs self.
Proof.
  intros Hag.
  assert (∀ name, VStr name ∈ xs' ++ [VStr "token"]
                  ↔ VStr name ∈ xs ++ [VStr "token"]) as Hagt.
  { intros name. rewrite !elem_of_app. by rewrite Hag. }
  destruct c; simpl;
    rewrite ?(kept_same_names _ _ _ Hag), ?(kept_same_names _ _ _ Hagt);
    try done.
  - unfold Employee_block. rewrite (kept_same_names _ _ _ Hag).
    by rewrite (bool_decide_ext _ _ (Hag "roles")).
  - unfold Role_block. rewrite (kept_same_names _ _ _ Hag).
    by rewrite (bool_decide_ext _ _ (Hag "groups")).
Qed.

(** X4: the exclusion list is used as a set of names: two lists that hold
    the same strings, in any order, any number of times and among any other
    entries, give the same result and leave the same store, the list itself
    apart. *)
Theorem get_dict_exclusion_as_set h self e i xs xs' :
  wf_heap h → h !! self = Some (OInst i) → h !! e = Some (OList xs) →
  caller_list h e →
  (∀ name, VStr name ∈ xs' ↔ VStr name ∈ xs) →
  ∃ d h' h'',
    get_dict self e h = Some (d, h')
    ∧ get_dict self e (<[e := OList xs']> h) = Some (d, h'')
    ∧ h'' !! d = h' !! d
    ∧ ∀ l, l ≠ e → h'' !! l = h' !! l.
Proof.
  intros Hwf Ei Ee [_ Hcl] Hag. pose proof (wf_runnable _ Hwf) as Hr.
  assert (e ≠ self) as Hne by (intros ->; congruence).
  assert (e < length h) as Hlt by (by eapply lookup_lt_Some).
  pose proof (get_dict_result (<[e := OList xs']> h) self e i xs'
                (other_list_runnable h e xs xs' Ee Hcl Hr)) as Hrun.
  rewrite other_list_lookup in Hrun by done.
  rewrite (other_list_lookup_e h e xs xs' Ee) in Hrun.
  specialize (Hrun Ei eq_refl).
  rewrite length_insert, list_insert_insert_eq in Hrun.
  rewrite (other_list_block h e xs xs' Ee) in Hrun.
  rewrite (method_block_same_names _ _ _ xs xs' _ Hag) in Hrun.
  assert (∀ l, l ≠ e →
            (<[e := OList (excludes_after (inst_class i) xs')]> h
             ++ method_block (inst_class i) (length h) h xs self) !! l
            = (<[e := OList (excludes_after (inst_class i) xs)]> h
               ++ method_block (inst_class i) (length h) h xs self) !! l)
    as Hoff.
  { intros l Hl. destruct (decide (l < length h)) as [Hl'|Hge].
    - rewrite !lookup_app_l by (by rewrite length_insert).
      by rewrite !list_lookup_insert_ne.
    - rewrite !lookup_app_r by (rewrite length_insert; lia).
      by rewrite !length_insert. }
  eexists _, _, _. split; [by apply get_dict_result|].
  split; [exact Hrun|]. split; [apply Hoff; lia|exact Hoff].
Qed.

Lemma get_dict_exclusion_as_set_witness :
  ∃ d h' h'',
    get_dict 8 12 sample_heap = Some (d, h')
    ∧ get_dict 8 12
        (<[12 := OList [VInt 3; VStr "nickname"; VStr "email";
                        VStr "nickname"]]> sample_heap)
      = Some (d, h'')
    ∧ h'' !! d = h' !! d
    ∧ ∀ l, l ≠ 12 → h'' !! l = h' !! l.
Proof.
  apply (get_dict_exclusion_as_set sample_heap 8 12 sample_employee
           sample_excludes).
  - apply (bool_decide_unpack _). vm_compute. exact I.
  - reflexivity.
  - reflexivity.
  - apply (bool_decide_unpack _). vm_compute. exact I.
  - intros name. unfold sample_excludes.
    rewrite !elem_of_cons, !elem_of_nil. intuition congruence.
Defined.

(** ** One exclusion list, several calls *)

Lemma excludes_after_tokens c xs k :
  excludes_after c xs ++ replicate k (VStr "token")
  = xs ++ replicate (if decide (c = App) then S k else k) (VStr "token").
Proof.
  destruct c; simpl; try done. by rewrite <- (assoc_L (++)).
Qed.

Lemma class_of_kept (h : heap) e xs ws blk l :
  h !! e = Some (OList xs) → l < length h →
  class_of (<[e := OList ws]> h ++ blk) l = class_of h l.
Proof.
  intros Ee Hl. unfold class_of.
  rewrite lookup_app_l by (by rewrite length_insert).
  destruct (decide (l = e)) as [->|Hne].
  - rewrite list_lookup_insert_eq by done. by rewrite Ee.
  - by rewrite list_lookup_insert_ne.
Qed.

Lemma class_of_lt h l : is_Some (class_of h l) → l < length h.
Proof.
  unfold class_of. intros [c Hc].
  destruct (h !! l) as [o|] eqn:E; [|done]. by eapply lookup_lt_Some.
Qed.

Lemma apps_among_ext h h1 rs :
  Forall (λ l, class_of h1 l = class_of h l) rs →
  apps_among h1 rs = apps_among h rs.
Proof.
  unfold apps_among. induction 1 as [|l rs Hl _ IH]; [done|].
  rewrite !filter_cons, Hl. case_decide; simpl; by rewrite IH.
Qed.

Lemma get_dict_all_run e rs :
  e = App_get_dict_defaults ∨ Role_get_dict_defaults < e →
  ∀ h xs,
    wf_heap h → Forall (λ r, is_Some (class_of h r)) rs →
    h !! e = Some (OList xs) →
    ∃ ds h',
      get_dict_all rs e h = Some (ds, h')
      ∧ wf_heap h'
      ∧ h' !! e
        = Some (OList (xs ++ replicate (apps_among h rs) (VStr "token")))
      ∧ length ds = length rs
      ∧ (∀ l, l ≠ e → l < length h → h' !! l = h !! l)
      ∧ Forall (λ d, length h ≤ d ∧ ∃ m, h' !! d = Some (ODict m)) ds
      ∧ NoDup ds.
Proof.
  intros Hcl. induction rs as [|r rs IH]; intros h xs Hwf Hrs Ee.
  - exists [], h. unfold apps_among. simpl. rewrite app_nil_r.
    split; [done|]. split; [done|]. split; [done|]. split; [done|].
    split; [done|]. split; constructor.
  - apply Forall_cons in Hrs as [[c Hc] Hrs].
    destruct (class_of_inst _ _ _ Hc) as (i & Ei & Ec).
    assert (e < length h) as Hlt by (by eapply lookup_lt_Some).
    pose proof (get_dict_result h r e i xs (wf_runnable _ Hwf) Ei Ee) as R.
    rewrite Ec in R.
    set (h1 := <[e := OList (excludes_after c xs)]> h
               ++ method_block c (length h) h xs r) in *.
    assert (wf_heap h1) as Hwf1.
    { eapply (get_dict_keeps_wf h r e i xs); [done..| |exact R]. by intros _. }
    assert (h1 !! e = Some (OList (excludes_after c xs))) as Ee1.
    { apply lookup_old. by apply list_lookup_insert_eq. }
    assert (∀ l, l < length h → class_of h1 l = class_of h l) as Hcls.
    { intros l Hl. by apply (class_of_kept h e xs). }
    assert (Forall (λ r0, is_Some (class_of h1 r0)) rs) as Hrs1.
    { eapply Forall_impl; [exact Hrs|]. intros l Hl. simpl.
      rewrite Hcls; [done|by apply class_of_lt]. }
    destruct (IH h1 _ Hwf1 Hrs1 Ee1) as (ds & h' & Rall & Hwf' & Ee' & Hlen
                                           & Hfr & Hds & Hnd).
    assert (length h < length h1) as Hgrow.
    { unfold h1. rewrite length_app, length_insert.
      pose proof (method_block_nonempty c (length h) h xs r). lia. }
    assert (apps_among h1 rs = apps_among h rs) as Hcount.
    { apply apps_among_ext. eapply Forall_impl; [exact Hrs|].
      intros l Hl. simpl. apply Hcls. by apply class_of_lt. }
    destruct (method_block_head c (length h) h xs r) as (m & rest & Hb & _).
    exists (length h :: ds), h'.
    split; [|split; [done|split; [|split; [|split; [|split]]]]].
    + unfold get_dict_all in *. cbn [for_each].
      rewrite (bind_run _ _ _ _ _ R), (bind_run _ _ _ _ _ Rall). done.
    + rewrite Ee', Hcount, excludes_after_tokens. do 3 f_equal.
      unfold apps_among. rewrite filter_cons, Hc.
      destruct (decide (c = App)) as [->|Hne].
      * by rewrite decide_True.
      * rewrite decide_False; [done|]. by intros [= ->].
    + simpl. by rewrite Hlen.
    + intros l Hne Hl. rewrite Hfr by lia. unfold h1.
      rewrite lookup_app_l by (by rewrite length_insert).
      by rewrite list_lookup_insert_ne.
    + constructor.
      * split; [done|]. exists m. rewrite Hfr by lia.
        unfold h1. by eapply lookup_result.
      * eapply Forall_impl; [exact Hds|]. intros d [Hd Hm]. split; [lia|done].
    + constructor; [|done]. intros Hd.
      destruct (proj1 (Forall_forall _ _) Hds _ Hd) as [Hge _]. lia.
Qed.

(** X5: serialising records one after the other with one exclusion list
    succeeds on a well-formed store and leaves in the list one more
    ['token'] for every App among them: nothing is ever taken out, so a
    list that is used again, like the default list of [App.get_dict],
    keeps growing. *)
Theorem get_dict_all_tokens e rs h xs :
  e = App_get_dict_defaults ∨ Role_get_dict_defaults < e →
  wf_heap h → Forall (λ r, is_Some (class_of h r)) rs →
  h !! e = Some (OList xs) →
  ∃ ds h',
    get_dict_all rs e h = Some (ds, h')
    ∧ length ds = length rs
    ∧ h' !! e
      = Some (OList (xs ++ replicate (apps_among h rs) (VStr "token"))).
Proof.
  intros Hcl Hwf Hrs Ee.
  destruct (get_dict_all_run e rs Hcl h xs Hwf Hrs Ee)
    as (ds & h' & R & _ & Ee' & Hlen & _).
  by exists ds, h'.
Qed.

Lemma get_dict_all_tokens_witness :
  ∃ ds h',
    get_dict_all [9; 8; 10; 9] 12 sample_heap = Some (ds, h')
    ∧ length ds = length [9; 8; 10; 9]
    ∧ h' !! 12
      = Some (OList (sample_excludes
                     ++ replicate (apps_among sample_heap [9; 8; 10; 9])
                          (VStr "token"))).
Proof.
  apply (get_dict_all_tokens 12 [9; 8; 10; 9] sample_heap sample_excludes).
  - right. unfold Role_get_dict_defaults. lia.
  - apply (bool_decide_unpack _). vm_compute. exact I.
  - apply (bool_decide_unpack _). vm_compute. exact I.
  - reflexivity.
Defined.

(** X6: the default lists stay as the module made them.  After any run of
    calls on records of a well-formed store, each with the default list of
    [App.get_dict] or a list of the caller, the store is well formed again:
    the default lists of [Model.get_dict], [Employee.get_dict] and
    [Role.get_dict] are still empty and the one of [App.get_dict] holds
    nothing but ['token']. *)
Theorem get_dict_all_keeps_defaults e rs h xs :
  e = App_get_dict_defaults ∨ Role_get_dict_defaults < e →
  wf_heap h → Forall (λ r, is_Some (class_of h r)) rs →
  h !! e = Some (OList xs) →
  ∃ ds h',
    get_dict_all rs e h = Some (ds, h')
    ∧ wf_heap h'
    ∧ h' !! Model_get_dict_defaults = Some (OList [])
    ∧ h' !! Employee_get_dict_defaults = Some (OList [])
    ∧ h' !! Role_get_dict_defaults = Some (OList [])
    ∧ only_token h' App_get_dict_defaults.
Proof.
  intros Hcl Hwf Hrs Ee.
  destruct (get_dict_all_run e rs Hcl h xs Hwf Hrs Ee)
    as (ds & h' & R & Hwf' & _).
  exists ds, h'. split; [done|]. split; [done|].
  by destruct Hwf' as (_ & _ & Hd).
Qed.

Lemma get_dict_all_keeps_defaults_witness :
  ∃ ds h',
    get_dict_all [9; 8; 6; 11; 10] App_get_dict_defaults sample_heap
    = Some (ds, h')
    ∧ wf_heap h'
    ∧ h' !! Model_get_dict_defaults = Some (OList [])
    ∧ h' !! Employee_get_dict_defaults = Some (OList [])
    ∧ h' !! Role_get_dict_defaults = Some (OList [])
    ∧ only_token h' App_get_dict_defaults.
Proof.
  apply (get_dict_all_keeps_defaults App_get_dict_defaults [9; 8; 6; 11; 10]
           sample_heap []).
  - by left.
  - apply (bool_decide_unpack _). vm_compute. exact I.
  - apply (bool_decide_unpack _). vm_compute. exact I.
  - reflexivity.
Defined.

(** X7: a list that was handed to [App.get_dict] excludes ['token'] from
    then on.  A record serialised with the same list after an App loses
    its ['token'] entry even though the caller never named it, and keeps
    every other entry that the list does not name. *)
Theorem get_dict_after_App h a r e ia ir xs :
  wf_heap h → caller_list h e →
  h !! a = Some (OInst ia) → inst_class ia = App →
  h !! r = Some (OInst ir) → h !! e = Some (OList xs) →
  ∃ d h' m,
    get_dict_after a r e h = Some (d, h')
    ∧ h' !! d = Some (ODict m)
    ∧ h' !! e = Some (OList (excludes_after (inst_class ir)
                               (xs ++ [VStr "token"])))
    ∧ m !! "token" = None
    ∧ ∀ s, s ≠ "token" → proxy_name (inst_class ir) ≠ Some s →
        m !! s = if decide (VStr s ∈ xs) then None else inst_dict ir !! s.
Proof.
  intros Hwf [_ Hcl] Ea Eca Er Ee.
  assert (e < length h) as Hlt by (by eapply lookup_lt_Some).
  assert (e ≠ r) as Hne by (intros ->; congruence).
  pose proof (get_dict_App_run h a e ia xs Ea Eca Ee) as Ra.
  set (h1 := <[e := OList (xs ++ [VStr "token"])]> h
             ++ [ODict (kept (xs ++ [VStr "token"]) (inst_dict ia))]) in *.
  assert (wf_heap h1) as Hwf1.
  { eapply (get_dict_keeps_wf h a e ia xs); [done..| |exact Ra].
    intros _. by right. }
  assert (h1 !! e = Some (OList (xs ++ [VStr "token"]))) as Ee1.
  { apply lookup_old. by apply list_lookup_insert_eq. }
  assert (h1 !! r = Some (OInst ir)) as Er1.
  { apply lookup_old. by rewrite list_lookup_insert_ne. }
  pose proof (get_dict_result h1 r e ir _ (wf_runnable _ Hwf1) Er1 Ee1) as Rr.
  destruct (method_block_head (inst_class ir) (length h1) h1
              (xs ++ [VStr "token"]) r) as (m & rest & Hb & Hex & Hrest).
  rewrite (attrs_inst _ _ _ Er1) in Hrest.
  eexists _, _, m. split.
  { unfold get_dict_after. rewrite (bind_run _ _ _ _ _ Ra). exact Rr. }
  split; [by eapply lookup_result|]. split.
  { apply lookup_old. apply list_lookup_insert_eq. by eapply lookup_lt_Some. }
  split.
  { apply Hex, excludes_after_incl, token_in_after. }
  intros s Hs Hp. rewrite (Hrest s Hp), kept_lookup.
  assert (VStr s ∈ excludes_after (inst_class ir) (xs ++ [VStr "token"])
          ↔ VStr s ∈ xs) as Hiff.
  { destruct (inst_class ir); simpl;
      rewrite ?elem_of_app, ?list_elem_of_singleton; intuition congruence. }
  repeat case_decide; try done; tauto.
Qed.

Lemma get_dict_after_App_witness :
  ∃ d h' m,
    get_dict_after 9 11 12 sample_heap = Some (d, h')
    ∧ h' !! d = Some (ODict m)
    ∧ h' !! 12 = Some (OList (excludes_after (inst_class sample_user)
                                (sample_excludes ++ [VStr "token"])))
    ∧ m !! "token" = None
    ∧ ∀ s, s ≠ "token" → proxy_name (inst_class sample_user) ≠ Some s →
        m !! s = if decide (VStr s ∈ sample_excludes) then None
                 else inst_dict sample_user !! s.
Proof.
  apply (get_dict_after_App sample_heap 9 11 12 sample_app1 sample_user
           sample_excludes).
  - apply (bool_decide_unpack _). vm_compute. exact I.
  - apply (bool_decide_unpack _). vm_compute. exact I.
  - reflexivity.
  - reflexivity.
  - reflexivity.
  - reflexivity.
Defined.

(** ** Exclusion stops at the first level *)




(** X9: likewise for a Role: each dictionary in its ['groups'] list is a
    new object that binds every attribute of its group, whatever the
    exclusion list names. *)
Theorem Role_get_dict_nested_unfiltered h self e i xs j g ig :
  wf_heap h → h !! self = Some (OInst i) → inst_class i = Role →
  h !! e = Some (OList xs) → VStr "groups" ∉ xs →
  inst_proxy i !! j = Some g → h !! g = Some (OInst ig) →
  ∃ d h' m groups ds dj,
    get_dict self e h = Some (d, h')
    ∧ h' !! d = Some (ODict m)
    ∧ m !! "groups" = Some (VRef groups)
    ∧ h' !! groups = Some (OList (VRef <$> ds))
    ∧ ds !! j = Some dj
    ∧ h' !! dj = Some (ODict (inst_dict ig))
    ∧ length h ≤ groups ∧ length h ≤ dj.
Proof.
  intros Hwf Ei Ec Ee Hin Ej Eg. pose proof (wf_runnable _ Hwf) as Hr.
  pose proof (get_dict_result h self e i xs Hr Ei Ee) as Hrun.
  rewrite Ec in Hrun. simpl in Hrun. rewrite (list_insert_id _ _ _ Ee) in Hrun.
  set (blk := Role_block (length h) h xs [] self) in *.
  assert (placed (h ++ blk) (length h) blk) as Hp.
  { rewrite <- (app_nil_r blk) at 1. apply placed_app. }
  unfold blk, Role_block in *.
  rewrite (attrs_inst _ _ _ Ei), (proxy_inst _ _ _ Ei) in *.
  rewrite bool_decide_eq_false_2 in * by done.
  apply placed_cons in Hp as [Ed Hp].
  pose proof (placed_app_r _ _ _ _ Hp) as Hl.
  apply placed_cons in Hl as [El _].
  unfold group_dicts in El at 1. rewrite length_fmap in El.
  pose proof (placed_app_l _ _ _ _ Hp) as Hg.
  assert ((h ++ ODict
             (<["groups" := VRef (S (length h) + length (inst_proxy i))]>
                (kept xs (inst_dict i)))
           :: group_dicts h [] (inst_proxy i)
           ++ [OList (VRef <$> seq (S (length h)) (length (inst_proxy i)))])
          !! (S (length h) + j) = Some (ODict (inst_dict ig))) as Edj.
  { apply Hg. unfold group_dicts. rewrite list_lookup_fmap, Ej. simpl.
    by rewrite kept_nil, (attrs_inst _ _ _ Eg). }
  eexists _, _, _, _, _, (S (length h) + j).
  split; [exact Hrun|]. split; [exact Ed|].
  split; [by rewrite lookup_insert_eq|]. split; [exact El|].
  split.
  { apply lookup_seq. split; [done|]. by eapply lookup_lt_Some. }
  split; [exact Edj|]. lia.
Qed.

Lemma Role_get_dict_nested_unfiltered_witness :
  ∃ d h' m groups ds dj,
    get_dict 6 12 (<[12 := OList [VStr "name"; VStr "app_id"]]> sample_heap)
    = Some (d, h')
    ∧ h' !! d = Some (ODict m)
    ∧ m !! "groups" = Some (VRef groups)
    ∧ h' !! groups = Some (OList (VRef <$> ds))
    ∧ ds !! 1 = Some dj
    ∧ h' !! dj = Some (ODict (inst_dict sample_group2))
    ∧ length (<[12 := OList [VStr "name"; VStr "app_id"]]> sample_heap)
      ≤ groups
    ∧ length (<[12 := OList [VStr "name"; VStr "app_id"]]> sample_heap) ≤ dj.
Proof.
  apply (Role_get_dict_nested_unfiltered
           (<[12 := OList [VStr "name"; VStr "app_id"]]> sample_heap)
           6 12 sample_role1 [VStr "name"; VStr "app_id"] 1 5 sample_group2).
  - apply (bool_decide_unpack _). vm_compute. exact I.
  - reflexivity.
  - reflexivity.
  - reflexivity.
  - apply (bool_decide_unpack _). vm_compute. exact I.
  - reflexivity.
  - reflexivity.
Defined.

(** ** Constructing and serialising *)










(** ** [User.get_id] *)








Lemma kept_only_tokens xs d :
  Forall (λ v, v = VStr "token") xs →
  kept (xs ++ [VStr "token"]) d = kept ([] ++ [VStr "token"]) d.
Proof.
  intros Hxs. apply kept_same_names. intros name.
  rewrite !elem_of_app, elem_of_nil, list_elem_of_singleton. split.
  - intros [Hin|Heq]; [|by right].
    right. apply (proj1 (Forall_forall _ _) Hxs _ Hin).
  - intros [[]|Heq]. by right.
Qed.

(** X15: the tokens that pile up in the default list of [App.get_dict] do
    not show in the results: whatever earlier calls have left in it,
    [app.get_dict()] returns a dictionary with the very entries that
    [app.get_dict([])] returns. *)
Theorem App_get_dict_default_as_empty h a i :
  wf_heap h → h !! a = Some (OInst i) → inst_class i = App →
  ∃ d1 h1 d2 h2 m,
    get_dict a App_get_dict_defaults h = Some (d1, h1)
    ∧ get_dict_with [] a h = Some (d2, h2)
    ∧ h1 !! d1 = Some (ODict m)
    ∧ h2 !! d2 = Some (ODict m)
    ∧ m !! "token" = None.
Proof.
  intros Hwf Ei Ec. pose proof Hwf as (_ & _ & _ & _ & _ & Ha).
  unfold only_token in Ha.
  destruct (h !! App_get_dict_defaults) as [[xs| |]|] eqn:Ed; try done.
  pose proof (get_dict_with_run h [] a i [] (wf_runnable _ Hwf) Ei) as R2.
  rewrite app_nil_r, Ec in R2. simpl in R2.
  rewrite (attrs_inst _ _ _ Ei) in R2.
  eexists _, _, _, _, _. split; [by apply get_dict_App_run|].
  split; [exact R2|]. split; [by eapply lookup_result|]. split.
  - rewrite (kept_only_tokens _ _ Ha). simpl.
    replace (S (length h)) with (length h + 1) by lia.
    by rewrite lookup_block.
  - rewrite kept_lookup. rewrite decide_True; [done|apply token_in_after].
Qed.

Lemma App_get_dict_default_as_empty_witness :
  ∃ d1 h1 d2 h2 m,
    get_dict 9 App_get_dict_defaults
      (<[App_get_dict_defaults := OList [VStr "token"; VStr "token"]]>
         sample_heap)
    = Some (d1, h1)
    ∧ get_dict_with [] 9
        (<[App_get_dict_defaults := OList [VStr "token"; VStr "token"]]>
           sample_heap)
      = Some (d2, h2)
    ∧ h1 !! d1 = Some (ODict m)
    ∧ h2 !! d2 = Some (ODict m)
    ∧ m !! "token" = None.
Proof.
  apply (App_get_dict_default_as_empty
           (<[App_get_dict_defaults := OList [VStr "token"; VStr "token"]]>
              sample_heap) 9 sample_app1).
  - apply (bool_decide_unpack _). vm_compute. exact I.
  - reflexivity.
  - reflexivity.
Defined.
